(* Verification of the batch OAuth authorizer (scripts/src):
   the rotation indexer (rotate.ts), the per-account orchestrator loop of
   runAuthCommand (main.ts), the artifact verifier waitForAuthFileByEmail and
   the challenge detector (login-flow.ts); the command-line parsing, the
   flow configuration and the auth status poll (config.ts), the account
   files (io.ts) and the helpers of main.ts. *)

From Stdlib Require Import String Ascii List ZArith Bool Lia Sorted Permutation.
Import ListNotations.
Set Warnings "-register-all,-abstract-large-number".
Open Scope list_scope.
Open Scope string_scope.

(* ------------------------------------------------------------------------- *)
(** * JavaScript strings

    A JS string is modelled as a Rocq [string]; one character stands for one
    UTF-16 code unit, so these strings hold the code units below 256 (ASCII
    and Latin-1).  On them [String.prototype.toLowerCase] maps [A]-[Z] and
    the Latin-1 capitals [À]-[Þ] (192-222) except [×] (215) to the code unit
    32 higher and leaves every other code unit unchanged.  The few Chinese
    words of the source (CPAMC status words and default challenge patterns)
    lie beyond that range; they are written in UTF-8, and no statement on
    [string] depends on them.  The challenge detector, whose statements do
    depend on non-Latin-1 text and on its length, works on lists of code
    units instead (section [LoginFlow]). *)

Definition lower_char (c : ascii) : ascii :=
  let n := nat_of_ascii c in
  if ((65 <=? n) && (n <=? 90))%nat || (((192 <=? n) && (n <=? 222)) && negb (n =? 215))%nat
  then ascii_of_nat (n + 32)%nat else c.

Fixpoint toLowerCase (s : string) : string :=
  match s with
  | EmptyString => EmptyString
  | String c r => String (lower_char c) (toLowerCase r)
  end.

Fixpoint startsWith (s p : string) : bool :=
  match p, s with
  | EmptyString, _ => true
  | String c p', String d s' => Ascii.eqb c d && startsWith s' p'
  | String _ _, EmptyString => false
  end.

(** [s.includes(p)] *)
Fixpoint includes (s p : string) : bool :=
  startsWith s p ||
  match s with
  | EmptyString => false
  | String _ s' => includes s' p
  end.

Definition endsWith (s p : string) : bool :=
  startsWith (string_of_list_ascii (rev (list_ascii_of_string s)))
             (string_of_list_ascii (rev (list_ascii_of_string p))).

(** [s.slice(0, n)] *)
Fixpoint slice0 (n : nat) (s : string) : string :=
  match n, s with
  | O, _ => EmptyString
  | _, EmptyString => EmptyString
  | S n', String c s' => String c (slice0 n' s')
  end.

(** The segments of a path between its separators: [split_path "/a//b"] is
    [[""; "a"; ""; "b"]]. *)
Fixpoint split_path (p : string) : list string :=
  match p with
  | EmptyString => [EmptyString]
  | String c r =>
      let segs := split_path r in
      if Ascii.eqb c "/"%char then EmptyString :: segs
      else match segs with
           | seg :: rest => String c seg :: rest
           | [] => [String c EmptyString]
           end
  end.

(** One segment of Node's [normalizeString] (POSIX), on the stack of the
    segments kept so far (last one first): empty and [.] segments are
    skipped; [..] drops the last kept segment, or is kept itself above the
    root of a relative path. *)
Definition norm_step (allowAboveRoot : bool) (stack : list string) (seg : string)
    : list string :=
  if String.eqb seg "" || String.eqb seg "." then stack
  else if String.eqb seg ".." then
    match stack with
    | top :: rest =>
        if String.eqb top ".." then (if allowAboveRoot then ".." :: stack else stack)
        else rest
    | [] => if allowAboveRoot then [".."] else []
    end
  else seg :: stack.

Definition normalizeString (p : string) (allowAboveRoot : bool) : string :=
  String.concat "/" (rev (fold_left (norm_step allowAboveRoot) (split_path p) [])).

(** [path.posix.normalize(p)] *)
Definition normalize (p : string) : string :=
  if String.eqb p "" then "."
  else
    let isAbsolute := startsWith p "/" in
    let trailingSeparator := endsWith p "/" in
    let q := normalizeString p (negb isAbsolute) in
    if String.eqb q "" then
      (if isAbsolute then "/" else if trailingSeparator then "./" else ".")
    else
      let q' := if trailingSeparator then q ++ "/" else q in
      if isAbsolute then "/" ++ q' else q'.

(** [path.join(dir, name)] (POSIX): the non-empty arguments joined with [/],
    then normalised. *)
Definition path_join (dir name : string) : string :=
  let joined :=
    if String.eqb dir "" then name
    else if String.eqb name "" then dir
    else dir ++ "/" ++ name in
  if String.eqb joined "" then "." else normalize joined.

(** POSIX [path.basename]: trailing separators are dropped, then the part
    after the last separator is kept. *)
Fixpoint drop_seps (r : list ascii) : list ascii :=
  match r with
  | c :: r' => if Ascii.eqb c "/"%char then drop_seps r' else r
  | [] => []
  end.

Fixpoint take_segment (r : list ascii) : list ascii :=
  match r with
  | c :: r' => if Ascii.eqb c "/"%char then [] else c :: take_segment r'
  | [] => []
  end.

Definition basename (p : string) : string :=
  string_of_list_ascii
    (rev (take_segment (drop_seps (rev (list_ascii_of_string p))))).


(* ------------------------------------------------------------------------- *)
(** * JavaScript values

    In-memory JS values and JSON documents.  An object is the list of its own
    properties in insertion order; objects produced by [JSON.parse] hold
    distinct keys (the last of duplicate keys is kept by the parser). *)

Inductive jsval : Type :=
| JUndef
| JNull
| JBool (b : bool)
| JNum (z : Z)
| JStr (s : string)
| JArr (xs : list jsval)
| JObj (props : list (string * jsval)).

Fixpoint assoc_get (k : string) (ps : list (string * jsval)) : jsval :=
  match ps with
  | [] => JUndef
  | (k', v) :: ps' => if String.eqb k k' then v else assoc_get k ps'
  end.

(** Property read [v.k] on a value that is neither [null] nor [undefined]
    (reading a property of those throws a TypeError, handled at each use). *)
Definition prop (v : jsval) (k : string) : jsval :=
  match v with
  | JObj ps => assoc_get k ps
  | _ => JUndef
  end.

Definition is_string (v : jsval) : bool :=
  match v with JStr _ => true | _ => false end.

(** [v.status === s] *)
Definition status_is (s : string) (v : jsval) : bool :=
  match prop v "status" with
  | JStr s' => String.eqb s' s
  | _ => false
  end.

(* ------------------------------------------------------------------------- *)
(** * rotate.ts *)

Inductive RotateStatus := Active | Expired | Disabled | Invalid.

Definition status_str (s : RotateStatus) : string :=
  match s with
  | Active => "active"
  | Expired => "expired"
  | Disabled => "disabled"
  | Invalid => "invalid"
  end.

Record RotateAccountEntry := mkEntry {
  re_email : string;
  re_file : string;
  re_expired : option string;
  re_status : RotateStatus
}.

(** The object literal built by [classify].  A property holding [undefined]
    ([expired] when absent) is read by no code here and dropped by
    [JSON.stringify], so it is left out. *)
Definition entry_to_js (e : RotateAccountEntry) : jsval :=
  JObj ([("email", JStr (re_email e)); ("file", JStr (re_file e))] ++
        match re_expired e with Some x => [("expired", JStr x)] | None => [] end ++
        [("status", JStr (status_str (re_status e)))]).

(** A directory entry as [fs.readdirSync(dir, { withFileTypes: true })] lists
    it, with the outcome of [JSON.parse(fs.readFileSync(file, "utf-8"))] on
    the file at the time it is read ([None]: reading or parsing threw). *)
Record dirent := mkDirent {
  d_name : string;
  d_isFile : bool;
  d_content : option jsval
}.

Record RotateIndex := mkIndex {
  generated_at : string;
  total : nat;
  active : nat;
  expired : nat;
  disabled : nat;
  invalid : nat;
  accounts : list jsval
}.

Definition count_status (s : string) (l : list jsval) : nat :=
  length (filter (status_is s) l).

Section Rotate.

(** [Date.parse]: [None] stands for [NaN] (the only non-finite result). *)
Variable date_parse : string -> option Z.

(** [classify(file)] at clock reading [now] ([Date.now()]). *)
Definition classify (now : Z) (file : string) (content : option jsval)
  : RotateAccountEntry :=
  let invalid_entry := mkEntry (basename file) file None Invalid in
  match content with
  | None => invalid_entry                       (* readFileSync / JSON.parse threw *)
  | Some JNull | Some JUndef => invalid_entry   (* data.email threw a TypeError *)
  | Some data =>
      let email := match prop data "email" with
                   | JStr s => s
                   | _ => basename file
                   end in
      let disabled := match prop data "disabled" with
                      | JBool true => true
                      | _ => false
                      end in
      let expired := match prop data "expired" with
                     | JStr s => Some s
                     | _ => None
                     end in
      if disabled then mkEntry email file expired Disabled
      else
        match expired with
        | Some x =>
            if String.eqb x "" then mkEntry email file expired Active
            else
              match date_parse x with
              | Some exp =>
                  if Z.ltb exp now then mkEntry email file expired Expired
                  else mkEntry email file expired Active
              | None => mkEntry email file expired Active
              end
        | None => mkEntry email file expired Active
        end
  end.

Definition is_artifact_name (d : dirent) : bool :=
  d_isFile d && startsWith (d_name d) "codex-" && endsWith (d_name d) ".json".

(** [buildRotationIndex(dir)]; [iso] is [new Date().toISOString()] and
    [now file] the reading of [Date.now()] when [classify] examines [file]
    (the listing names each file once). *)
Definition buildRotationIndex (dir : string) (listing : list dirent)
    (now : string -> Z) (iso : string) : RotateIndex :=
  let files := map (fun d => (path_join dir (d_name d), d_content d))
                   (filter is_artifact_name listing) in
  let accts := map (fun fc => entry_to_js (classify (now (fst fc)) (fst fc) (snd fc))) files in
  mkIndex iso (length accts)
    (count_status "active" accts) (count_status "expired" accts)
    (count_status "disabled" accts) (count_status "invalid" accts) accts.

End Rotate.

(** [accountKey(entry)].  Every entry reaching it carries string [email] and
    [file] fields (the prior-index filter and [classify] guarantee it). *)
Definition accountKey (entry : jsval) : string :=
  let email := match prop entry "email" with JStr s => s | _ => "" end in
  let file := match prop entry "file" with JStr s => s | _ => "" end in
  toLowerCase email ++ "|" ++ toLowerCase (basename file).

(** The filter on the previous index's entries:
    [!!x && typeof x === "object" && typeof x.email === "string"
     && typeof x.file === "string"]. *)
Definition prior_entry_ok (x : jsval) : bool :=
  match x with
  | JObj _ | JArr _ => is_string (prop x "email") && is_string (prop x "file")
  | _ => false
  end.

(** The previous index file: [None] when it does not exist, [Some None] when
    reading or parsing it threw, [Some (Some v)] for the parsed document. *)
Definition existingAccounts (prior : option (option jsval)) : list jsval :=
  match prior with
  | Some (Some JNull) | Some (Some JUndef) => []   (* parsed.accounts threw *)
  | Some (Some parsed) =>
      match prop parsed "accounts" with
      | JArr xs => filter prior_entry_ok xs
      | _ => []
      end
  | _ => []
  end.

(** JS [Map<string, V>]: [set] on a present key keeps its position. *)
Fixpoint map_set {V : Type} (k : string) (v : V) (m : list (string * V))
  : list (string * V) :=
  match m with
  | [] => [(k, v)]
  | (k', v') :: m' =>
      if String.eqb k k' then (k', v) :: m' else (k', v') :: map_set k v m'
  end.

Definition merge_into (m : list (string * jsval)) (l : list jsval)
  : list (string * jsval) :=
  fold_left (fun m acc => map_set (accountKey acc) acc m) l m.

(** The index written by [writeRotationIndex(outPath, index)]; [iso] is the
    fresh [generated_at]. *)
Definition writeRotationIndex (prior : option (option jsval))
    (index : RotateIndex) (iso : string) : RotateIndex :=
  let merged := merge_into (merge_into [] (existingAccounts prior)) (accounts index) in
  let mergedAccounts := map snd merged in
  mkIndex iso (length mergedAccounts)
    (count_status "active" mergedAccounts) (count_status "expired" mergedAccounts)
    (count_status "disabled" mergedAccounts) (count_status "invalid" mergedAccounts)
    mergedAccounts.

(** [JSON.stringify(finalIndex)] read back by [JSON.parse]. *)
Definition index_to_js (i : RotateIndex) : jsval :=
  JObj [("generated_at", JStr (generated_at i));
        ("total", JNum (Z.of_nat (total i)));
        ("active", JNum (Z.of_nat (active i)));
        ("expired", JNum (Z.of_nat (expired i)));
        ("disabled", JNum (Z.of_nat (disabled i)));
        ("invalid", JNum (Z.of_nat (invalid i)));
        ("accounts", JArr (accounts i))].

(** [runRotateIndexCommand]: build from the directory, then merge into the
    index file found at the output path. *)
Definition rotate_index_run (date_parse : string -> option Z) (dir : string)
    (listing : list dirent) (now : string -> Z) (iso_build iso_write : string)
    (prior : option (option jsval)) : RotateIndex :=
  writeRotationIndex prior (buildRotationIndex date_parse dir listing now iso_build) iso_write.

(* ------------------------------------------------------------------------- *)
(** * main.ts: the per-account loop of [runAuthCommand] *)

(** The outcome of an awaited call: a value, or a thrown error carrying the
    message the [catch] block reads ([error.message] or [String(error)]). *)
Inductive exc (A : Type) : Type :=
| Ok (a : A)
| Throw (msg : string).
Arguments Ok {A} a.
Arguments Throw {A} msg.

Inductive FailureCode :=
| INVALID_INPUT | LOGIN_REJECTED | CHALLENGE_REQUIRED | TOKEN_NOT_FOUND
| WRITE_FAILED | CPAMC_LOGIN_FAILED | CPAMC_LINK_NOT_FOUND | CPAMC_OAUTH_FAILED
| CALLBACK_URL_NOT_CAPTURED | CALLBACK_SUBMIT_FAILED | UNKNOWN.

Inductive ResultStatus := Rsuccess | Rfailed | Rskipped.

Record AccountCredential := mkAccount {
  acc_email : string;
  acc_password : string;
  acc_plan : option string
}.

Record AuthResult := mkResult {
  res_email : string;
  res_plan : string;
  res_status : ResultStatus;
  res_code : option FailureCode;
  res_message : option string;
  res_file : option string;
  res_started_at : string;
  res_ended_at : string
}.

(** [runLoginFlow]'s result. *)
Record FlowResult := mkFlow {
  fr_finalUrl : string;
  fr_challenge : bool;
  fr_invalidCredentials : bool;
  fr_callbackUrl : option string
}.

Inductive CpamcStatus := StSuccess | StError | StWaiting.

Record CpamcAuthStatus := mkStatus {
  st_status : CpamcStatus;
  st_message : option string
}.

(** What the browser, the console and the file system answer during one
    iteration of the loop: each awaited call of the iteration, in source
    order.  [w_poll] receives the settle timeout it is called with. *)
Record AccountWorld := mkWorld {
  w_newContext : exc unit;            (* browser.newContext() *)
  w_controlPage : exc unit;           (* context.newPage() *)
  w_ensureLogin : exc unit;           (* ensureCpamcLogin *)
  w_gotoOauth : exc unit;             (* gotoOauthPage *)
  w_startOauth : exc string;          (* startCodexOauthAndGetUrl *)
  w_authPage : exc unit;              (* context.newPage() *)
  w_runLoginFlow : exc FlowResult;    (* runLoginFlow *)
  w_detectChallenge : exc bool;       (* detectChallenge(authPage, flow) *)
  w_poll : Z -> exc CpamcAuthStatus;  (* pollCpamcAuthStatus *)
  w_waitFile : exc (option string);   (* waitForAuthFileByEmail *)
  w_started : string;                 (* startedAt *)
  w_ended : string                    (* new Date().toISOString() at push *)
}.

(** Control flow of the [try] block: normal completion, [continue], or a
    thrown error; the block's state is the [results] array. *)
Inductive flow (A : Type) : Type :=
| Normal (a : A)
| Continue
| Raise (msg : string).
Arguments Normal {A} a.
Arguments Continue {A}.
Arguments Raise {A} msg.

Definition M (A : Type) : Type := list AuthResult -> flow A * list AuthResult.

Definition ret {A} (a : A) : M A := fun rs => (Normal a, rs).

Definition bind {A B} (m : M A) (k : A -> M B) : M B :=
  fun rs =>
    match m rs with
    | (Normal a, rs') => k a rs'
    | (Continue, rs') => (Continue, rs')
    | (Raise e, rs') => (Raise e, rs')
    end.

Notation "x <- m ;; k" := (bind m (fun x => k))
  (at level 61, m at next level, right associativity).

(** [await call] *)
Definition await {A} (e : exc A) : M A :=
  fun rs => match e with Ok a => (Normal a, rs) | Throw m => (Raise m, rs) end.

(** [results.push(r)] *)
Definition push (r : AuthResult) : M unit := fun rs => (Normal tt, (rs ++ [r])%list).

(** [continue] *)
Definition continue_ : M unit := fun rs => (Continue, rs).

Section Auth.

(** [getStateFromAuthUrl] (URL parsing of the [state] query parameter). *)
Variable getStateFromAuthUrl : string -> option string.
Variable timeoutMs : Z.
Variable defaultPlan : string.

Definition plan_of (a : AccountCredential) : string :=
  match acc_plan a with Some p => p | None => defaultPlan end.

Definition failed (w : AccountWorld) (a : AccountCredential) (c : FailureCode)
    (msg : string) : AuthResult :=
  mkResult (acc_email a) (plan_of a) Rfailed (Some c) (Some msg) None
    (w_started w) (w_ended w).

Definition msg_or (m : option string) (d : string) : string :=
  match m with Some x => x | None => d end.

(** The body of the [try] block for one account. *)
Definition account_body (w : AccountWorld) (a : AccountCredential) : M unit :=
  _ <- await (w_controlPage w) ;;
  _ <- await (w_ensureLogin w) ;;
  _ <- await (w_gotoOauth w) ;;
  authUrl <- await (w_startOauth w) ;;
  match getStateFromAuthUrl authUrl with
  | None =>
      _ <- push (failed w a CPAMC_LINK_NOT_FOUND "Auth URL state not found.") ;;
      continue_
  | Some state =>
      _ <- await (w_authPage w) ;;
      flowResult <- await (w_runLoginFlow w) ;;
      challenge <- (if fr_challenge flowResult then ret true
                    else await (w_detectChallenge w)) ;;
      let settleTimeoutMs :=
        if fr_invalidCredentials flowResult || challenge
        then Z.min timeoutMs 30000 else timeoutMs in
      status <- await (w_poll w settleTimeoutMs) ;;
      if fr_invalidCredentials flowResult then
        _ <- push (failed w a LOGIN_REJECTED
                     (msg_or (st_message status) "Incorrect email address or password.")) ;;
        continue_
      else if challenge then
        _ <- push (failed w a CHALLENGE_REQUIRED
                     (msg_or (st_message status)
                        "Challenge detected (captcha/2FA/verification). Skipped account.")) ;;
        continue_
      else
        match st_status status with
        | StError =>
            _ <- push (failed w a CPAMC_OAUTH_FAILED
                         (msg_or (st_message status) "CPAMC OAuth reported failure.")) ;;
            continue_
        | StWaiting =>
            _ <- push (failed w a CPAMC_OAUTH_FAILED
                         "Timed out waiting CPAMC authentication result.") ;;
            continue_
        | StSuccess =>
            file <- await (w_waitFile w) ;;
            match file with
            | None =>
                _ <- push (failed w a WRITE_FAILED
                             "OAuth completed but auth file not found.") ;;
                continue_
            | Some f =>
                push (mkResult (acc_email a) (plan_of a) Rsuccess None None
                        (Some f) (w_started w) (w_ended w))
            end
        end
  end.

(** The code chosen by the [catch] block from the error message. *)
Definition error_code (message : string) : FailureCode :=
  let lower := toLowerCase message in
  if includes lower "management key" then CPAMC_LOGIN_FAILED
  else if includes lower "auth url" then CPAMC_LINK_NOT_FOUND
  else if includes lower "timeout" then LOGIN_REJECTED
  else UNKNOWN.

(** One iteration: [try { body } catch (error) { push } finally { close }];
    the [finally] block only closes pages ([.catch]-guarded), and the
    trailing [sleep(delayMs)] changes no state modelled here. *)
Definition iteration (w : AccountWorld) (a : AccountCredential)
    (rs : list AuthResult) : list AuthResult :=
  match account_body w a rs with
  | (Raise message, rs') => (rs' ++ [failed w a (error_code message) message])%list
  | (_, rs') => rs'
  end.

(** End of the account loop: all accounts processed, or an error thrown out
    of it (the outer [finally] closes the browser and the error leaves
    [runAuthCommand] before any report is written). *)
Inductive loop_end :=
| LoopDone (results : list AuthResult)
| LoopAborted (msg : string) (partial : list AuthResult).

(** [for (let i = 0; i < accounts.length; i++) { ... }]; [worlds i] answers
    the calls of iteration [i].  [browser.newContext()] is awaited before the
    per-account [try]. *)
Fixpoint auth_loop (worlds : nat -> AccountWorld) (i : nat)
    (accts : list AccountCredential) (rs : list AuthResult) : loop_end :=
  match accts with
  | [] => LoopDone rs
  | a :: rest =>
      match w_newContext (worlds i) with
      | Throw m => LoopAborted m rs
      | Ok _ => auth_loop worlds (S i) rest (iteration (worlds i) a rs)
      end
  end.

Record Summary := mkSummary {
  sum_mode : string;
  sum_total : nat;
  sum_success : nat;
  sum_failed : nat;
  sum_skipped : nat;
  sum_results : list AuthResult
}.

Definition status_eqb (s t : ResultStatus) : bool :=
  match s, t with
  | Rsuccess, Rsuccess | Rfailed, Rfailed | Rskipped, Rskipped => true
  | _, _ => false
  end.

Definition count_res (s : ResultStatus) (rs : list AuthResult) : nat :=
  length (filter (fun r => status_eqb (res_status r) s) rs).

(** The dry-run branch: one skipped result per account. *)
Definition dry_run_result (started ended outputFile : string)
    (a : AccountCredential) : AuthResult :=
  mkResult (acc_email a) (plan_of a) Rskipped (Some UNKNOWN)
    (Some ("Dry run only. Planned output: " ++ outputFile)) None started ended.

(** [runAuthCommand] from the loaded [accounts] on: [Ok summary] is the
    report written, [Throw] an error thrown out of the command.  [launch] is
    [chromium.launch(...)]; [close] is [await browser.close()] in the outer
    [finally], whose throw replaces the outcome of the loop; [write] is
    [writeJsonFile(reportPath, summary)] (its [mkdirSync] and
    [writeFileSync], which throw for instance when [reportPath] names a
    directory); [dry] holds, per account, the timestamps and the planned
    output path of the dry-run branch. *)
Definition runAuth (dryRun : bool) (launch close write : exc unit)
    (dry : AccountCredential -> string * string * string)
    (worlds : nat -> AccountWorld) (accts : list AccountCredential)
    : exc Summary :=
  if dryRun then
    let results := map (fun a => let '(s, e, o) := dry a in dry_run_result s e o a) accts in
    let summary := mkSummary "dry-run" (length results) 0 0 (length results) results in
    match write with
    | Throw m => Throw m
    | Ok _ => Ok summary
    end
  else
    match launch with
    | Throw m => Throw m
    | Ok _ =>
        let loop := auth_loop worlds 0 accts [] in
        match close with
        | Throw m => Throw m
        | Ok _ =>
            match loop with
            | LoopAborted m _ => Throw m
            | LoopDone results =>
                let summary := mkSummary "run" (length results) (count_res Rsuccess results)
                                 (count_res Rfailed results) (count_res Rskipped results) results in
                match write with
                | Throw m => Throw m
                | Ok _ => Ok summary
                end
            end
        end
    end.

End Auth.

(* ------------------------------------------------------------------------- *)
(** * config.ts: [waitForAuthFileByEmail] *)

(** One file examined in the polling loop:
    [try { data = JSON.parse(readFileSync(file)); if (typeof data.email ===
    "string" && data.email.toLowerCase() === lowerEmail) return file; }
    catch { /* not yet */ }]. *)
Definition email_matches (lowerEmail : string) (content : option jsval) : bool :=
  match content with
  | None => false                      (* read or parse threw: ignored *)
  | Some JNull | Some JUndef => false  (* data.email threw: ignored *)
  | Some data =>
      match prop data "email" with
      | JStr e => String.eqb (toLowerCase e) lowerEmail
      | _ => false
      end
  end.

(** One pass over a directory listing: the first matching artifact file. *)
Fixpoint scan_files (authDir lowerEmail : string) (ds : list dirent) : option string :=
  match ds with
  | [] => None
  | d :: ds' =>
      if is_artifact_name d && email_matches lowerEmail (d_content d)
      then Some (path_join authDir (d_name d))
      else scan_files authDir lowerEmail ds'
  end.

Section WaitForAuthFile.
Local Open Scope Z_scope.

Variable authDir : string.
Variable email : string.
Variable timeoutMs : Z.
(** [Date.now()] when the loop starts. *)
Variable started : Z.
(** [fs.readdirSync(authDir, { withFileTypes: true })] at clock reading [t]
    (with each file's content as read during that pass); it throws when the
    directory cannot be listed. *)
Variable readdir : Z -> exc (list dirent).

(** [wait_for t polls r]: the loop, entered with [Date.now() = t], polls at
    the clock readings [polls] and ends with [r].  After a pass without a
    match it scans for [d] milliseconds and sleeps [setTimeout(_, 1000)],
    which fires no earlier than 1000 ms later. *)
Inductive wait_for : Z -> list Z -> exc (option string) -> Prop :=
| wait_timeout t :
    t - started >= timeoutMs ->
    wait_for t [] (Ok None)
| wait_readdir_throws t m :
    t - started < timeoutMs ->
    readdir t = Throw m ->
    wait_for t [t] (Throw m)
| wait_found t ds f :
    t - started < timeoutMs ->
    readdir t = Ok ds ->
    scan_files authDir (toLowerCase email) ds = Some f ->
    wait_for t [t] (Ok (Some f))
| wait_again t ds d polls r :
    t - started < timeoutMs ->
    readdir t = Ok ds ->
    scan_files authDir (toLowerCase email) ds = None ->
    0 <= d ->
    wait_for (t + d + 1000) polls r ->
    wait_for t (t :: polls) r.

(** [waitForAuthFileByEmail(authDir, email, timeoutMs)] ends with [r]. *)
Definition waitForAuthFileByEmail (polls : list Z) (r : exc (option string)) : Prop :=
  wait_for started polls r.

End WaitForAuthFile.

(* ------------------------------------------------------------------------- *)
(** * login-flow.ts: [detectChallenge]

    Here a JS string is what the engine holds: its list of UTF-16 code units,
    so [s.slice(0, n)] is [firstn n s] and the Chinese literals are their
    code units. *)

Definition ustr := list Z.

(** An ASCII literal as code units. *)
Definition units (s : string) : ustr :=
  map (fun c => Z.of_nat (nat_of_ascii c)) (list_ascii_of_string s).

(** [s === t] *)
Definition ustr_eqb (s t : ustr) : bool :=
  if list_eq_dec Z.eq_dec s t then true else false.

(** [s.startsWith(p)] *)
Fixpoint ustartsWith (s p : ustr) : bool :=
  match p, s with
  | [], _ => true
  | x :: p', y :: s' => Z.eqb x y && ustartsWith s' p'
  | _ :: _, [] => false
  end.

(** [s.includes(p)] *)
Fixpoint uincludes (s p : ustr) : bool :=
  ustartsWith s p ||
  match s with
  | [] => false
  | _ :: s' => uincludes s' p
  end.

(** The alternatives of [/登录到 Codex|to Codex/i]: U+767B U+5F55 U+5230
    followed by [" Codex"], and ["to Codex"]. *)
Definition consent_zh : ustr := ([30331%Z; 24405%Z; 21040%Z] ++ units " Codex")%list.
Definition consent_en : ustr := units "to Codex".

(** The members of [overlyBroad]: ["verification"] and ["验证"] (U+9A8C
    U+8BC1). *)
Definition broad_en : ustr := units "verification".
Definition broad_zh : ustr := [39564%Z; 35777%Z].

(** The fields of the flow configuration that [detectChallenge] reads. *)
Record FlowConfig := mkFlowConfig {
  challengeSelectors : list ustr;
  challengeTextPatterns : list ustr
}.

(** What [detectChallenge] observes on the page. *)
Record PageView := mkPage {
  (** [await frame.locator("body").innerText().catch(() => "")] for each
      frame of [page.frames()]: the empty text when it rejects. *)
  frame_texts : list ustr;
  (** [await page.locator(selector).first().count()]: no [catch], so a
      rejection (for instance an invalid selector) is thrown. *)
  selector_count : ustr -> exc Z;
  (** [await loc.isVisible().catch(() => false)] *)
  selector_visible : ustr -> bool;
  (** [await page.content()]: no [catch] either. *)
  page_content : exc ustr
}.

Section LoginFlow.

(** [String.prototype.toLowerCase] *)
Variable lowerCase : ustr -> ustr.
(** [Canonicalize] of a regular expression with flag [i] and without [u]:
    it compares code units after upper-casing each one on its own. *)
Variable canonicalize : Z -> Z.

(** The literal [p] matches at the start of [s]. *)
Fixpoint match_ci (s p : ustr) : bool :=
  match p, s with
  | [], _ => true
  | x :: p', y :: s' => Z.eqb (canonicalize y) (canonicalize x) && match_ci s' p'
  | _ :: _, [] => false
  end.

(** The literal [p] matches at some position of [s]. *)
Fixpoint search_ci (s p : ustr) : bool :=
  match_ci s p ||
  match s with
  | [] => false
  | _ :: s' => search_ci s' p
  end.

(** [/登录到 Codex|to Codex/i.test(s)] *)
Definition consent_re (s : ustr) : bool :=
  search_ci s consent_zh || search_ci s consent_en.

(** [frameLooksLikeConsent(frame)] *)
Definition frameLooksLikeConsent (bodyText : ustr) : bool :=
  consent_re (firstn 12000 bodyText).

(** [onCodexConsentPage(page)] *)
Definition onCodexConsentPage (p : PageView) : bool :=
  existsb frameLooksLikeConsent (frame_texts p).

(** [overlyBroad.has(t)] *)
Definition overlyBroad (t : ustr) : bool :=
  ustr_eqb t broad_en || ustr_eqb t broad_zh.

(** [for (const selector of cfg.challengeSelectors) { const loc = ...;
    if ((await loc.count()) > 0 && (await loc.isVisible().catch(...)))
    return true; }]: [Ok false] when the loop ends. *)
Fixpoint selectorLoop (p : PageView) (sels : list ustr) : exc bool :=
  match sels with
  | [] => Ok false
  | sel :: rest =>
      match selector_count p sel with
      | Throw m => Throw m
      | Ok n =>
          if (0 <? n)%Z && selector_visible p sel then Ok true
          else selectorLoop p rest
      end
  end.

(** [detectChallenge(page, cfg)] *)
Definition detectChallenge (p : PageView) (cfg : FlowConfig) : exc bool :=
  if onCodexConsentPage p then Ok false
  else
    match selectorLoop p (challengeSelectors cfg) with
    | Throw m => Throw m
    | Ok true => Ok true
    | Ok false =>
        match page_content p with
        | Throw m => Throw m
        | Ok content =>
            let html := lowerCase content in
            Ok (existsb (fun t => uincludes html t)
                  (filter (fun t => negb (overlyBroad t))
                     (map lowerCase (challengeTextPatterns cfg))))
        end
    end.

(** Some frame's first 12000 code units match the consent pattern. *)
Definition consent_showing (p : PageView) : Prop :=
  exists s, In s (frame_texts p) /\ consent_re (firstn 12000 s) = true.

End LoginFlow.

(** A selector is present ([count() > 0]) and visible. *)
Definition selector_shown (p : PageView) (sel : ustr) : Prop :=
  exists n, selector_count p sel = Ok n /\ (0 < n)%Z /\ selector_visible p sel = true.

(** [toLowerCase] and [Canonicalize] on ASCII code units; on a text of ASCII
    code units the engine's mappings are these. *)
Definition ascii_lowerCase (s : ustr) : ustr :=
  map (fun u => if (65 <=? u)%Z && (u <=? 90)%Z then (u + 32)%Z else u) s.

Definition ascii_canonicalize (u : Z) : Z :=
  if (97 <=? u)%Z && (u <=? 122)%Z then (u - 32)%Z else u.

(* ------------------------------------------------------------------------- *)
(** * Vocabulary of the statements *)

(** The entry a list holds for key [k]: the first one with that key. *)
Definition entry_for (k : string) (l : list jsval) : option jsval :=
  find (fun v => String.eqb (accountKey v) k) l.

(** The last entry of [l] with key [k]. *)
Definition last_for (k : string) (l : list jsval) : option jsval :=
  entry_for k (rev l).

Fixpoint find_key {V : Type} (k : string) (m : list (string * V)) : option V :=
  match m with
  | [] => None
  | (k', v) :: m' => if String.eqb k k' then Some v else find_key k m'
  end.

Definition keys (l : list jsval) : list string := map accountKey l.

(** The [accounts] array of the previous index, before filtering. *)
Definition prior_array (prior : option (option jsval)) : list jsval :=
  match prior with
  | Some (Some JNull) | Some (Some JUndef) => []
  | Some (Some parsed) =>
      match prop parsed "accounts" with JArr xs => xs | _ => [] end
  | _ => []
  end.


(** Successive clock readings at least one second apart. *)
Fixpoint spaced (ts : list Z) : Prop :=
  match ts with
  | t1 :: ((t2 :: _) as rest) => (t1 + 1000 <= t2)%Z /\ spaced rest
  | _ => True
  end.

(** ** Sample inputs *)

Definition sample_url : string :=
  "https://auth.openai.com/oauth/authorize?state=s1".

(** [getStateFromAuthUrl] on the sample URL. *)
Definition sample_state (u : string) : option string :=
  if String.eqb u sample_url then Some "s1" else None.

(** An iteration in which every call returns and the account signs in. *)
Definition world_ok : AccountWorld :=
  mkWorld (Ok tt) (Ok tt) (Ok tt) (Ok tt) (Ok sample_url) (Ok tt)
    (Ok (mkFlow "http://localhost:1455/auth/callback?code=c" false false None))
    (Ok false) (fun _ => Ok (mkStatus StSuccess None))
    (Ok (Some "/auth/codex-a@example.com-free.json")) "t0" "t1".

Definition sample_accounts : list AccountCredential :=
  [mkAccount "a@example.com" "pw-a" None;
   mkAccount "b@example.com" "pw-b" (Some "plus");
   mkAccount "c@example.com" "pw-c" None].

Definition sample_dry (a : AccountCredential) : string * string * string :=
  ("t0", "t0", "/auth/codex.json").

(* ------------------------------------------------------------------------- *)
(** * More JavaScript string operations *)

(** White space as [String.prototype.trim] and the class [\s] read it, on
    the one-byte range: TAB, LF, VT, FF, CR, SPACE and NO-BREAK SPACE. *)
Definition is_js_space (c : ascii) : bool :=
  let n := nat_of_ascii c in
  ((9 <=? n) && (n <=? 13))%nat || (n =? 32)%nat || (n =? 160)%nat.

Fixpoint trim_start (l : list ascii) : list ascii :=
  match l with
  | c :: l' => if is_js_space c then trim_start l' else l
  | [] => []
  end.

(** [s.trim()] *)
Definition trim (s : string) : string :=
  string_of_list_ascii
    (rev (trim_start (rev (trim_start (list_ascii_of_string s))))).

(** [s.split(sep)] for a non-empty separator [sep]: the pieces between the
    occurrences of [sep], found left to right without overlap.  [skip]
    counts the characters of a matched separator still to be passed over. *)
Fixpoint split_go (sep : string) (skip : nat) (s cur : string) : list string :=
  match s with
  | EmptyString => [cur]
  | String c s' =>
      match skip with
      | S k => split_go sep k s' cur
      | O =>
          if startsWith s sep
          then cur :: split_go sep (String.length sep - 1)%nat s' ""
          else split_go sep 0 s' (cur ++ String c "")
      end
  end.

Definition str_split (sep s : string) : list string := split_go sep 0 s "".

(** [s.split(/\r?\n/)] *)
Fixpoint split_lines_go (s cur : string) : list string :=
  match s with
  | EmptyString => [cur]
  | String c s' =>
      if Ascii.eqb c "010"%char then cur :: split_lines_go s' ""
      else if Ascii.eqb c "013"%char then
        match s' with
        | String d s'' =>
            if Ascii.eqb d "010"%char then cur :: split_lines_go s'' ""
            else split_lines_go s' (cur ++ String c "")
        | EmptyString => split_lines_go s' (cur ++ String c "")
        end
      else split_lines_go s' (cur ++ String c "")
  end.

Definition split_lines (s : string) : list string := split_lines_go s "".

(** [c] is in the class [[^\s@]]. *)
Definition email_char (c : ascii) : bool :=
  negb (is_js_space c || Ascii.eqb c "@"%char).

(** The characters before and after the first [c] of a list. *)
Fixpoint break_at (c : ascii) (l : list ascii) : option (list ascii * list ascii) :=
  match l with
  | [] => None
  | d :: l' =>
      if Ascii.eqb d c then Some ([], l')
      else match break_at c l' with
           | Some (b, a) => Some (d :: b, a)
           | None => None
           end
  end.

(** [EMAIL_RE.test(s)] with [EMAIL_RE = /^[^\s@]+@[^\s@]+\.[^\s@]+$/]: a
    non-empty local part and a domain, both in [[^\s@]], the domain holding
    a dot that is neither its first nor its last character. *)
Definition email_re (s : string) : bool :=
  match break_at "@"%char (list_ascii_of_string s) with
  | None => false
  | Some (local, domain) =>
      match local with [] => false | _ => true end &&
      forallb email_char local && forallb email_char domain &&
      match domain with
      | [] => false
      | _ :: rest => existsb (fun c => Ascii.eqb c "."%char) (removelast rest)
      end
  end.

(** [s.indexOf(c)] for a one-character [c]. *)
Fixpoint indexOf (c : ascii) (s : string) : Z :=
  match s with
  | EmptyString => (-1)%Z
  | String d s' =>
      if Ascii.eqb d c then 0%Z
      else let i := indexOf c s' in if (i <? 0)%Z then (-1)%Z else (i + 1)%Z
  end.

(** [s.slice(n)] for [n >= 0] *)
Fixpoint slice_from (n : nat) (s : string) : string :=
  match n, s with
  | O, _ => s
  | _, EmptyString => EmptyString
  | S n', String _ s' => slice_from n' s'
  end.

(* ------------------------------------------------------------------------- *)
(** * config.ts: command-line options *)

Record ParsedArgs := mkParsed {
  command : string;
  options : list (string * string);   (* the own properties of [options] *)
  flags : list string                  (* the elements of the [Set] *)
}.

(** [token.slice(2)] *)
Definition slice2 (s : string) : string := slice_from 2 s.

(** [options[key] = next]: on a plain object an assignment to [__proto__]
    goes to the inherited setter, which ignores a string. *)
Definition obj_set (k v : string) (m : list (string * string))
  : list (string * string) :=
  if String.eqb k "__proto__" then m else map_set k v m.

(** [flags.add(key)] *)
Definition set_add (k : string) (s : list string) : list string :=
  if existsb (String.eqb k) s then s else (s ++ [k])%list.

(** The loop of [parseArgs] from [argv[1]] on; [!next] holds for a missing
    or an empty next token. *)
Fixpoint parse_tokens (ts : list string) (opts : list (string * string))
    (fl : list string) : list (string * string) * list string :=
  match ts with
  | [] => (opts, fl)
  | token :: rest =>
      if negb (startsWith token "--") then parse_tokens rest opts fl
      else
        let key := slice2 token in
        match rest with
        | next :: rest' =>
            if String.eqb next "" || startsWith next "--"
            then parse_tokens rest opts (set_add key fl)
            else parse_tokens rest' (obj_set key next opts) fl
        | [] => parse_tokens rest opts (set_add key fl)
        end
  end.

Definition parseArgs (argv : list string) : ParsedArgs :=
  match argv with
  | [] => mkParsed "" [] []
  | cmd :: rest => let '(o, f) := parse_tokens rest [] [] in mkParsed cmd o f
  end.

(** The names [Object.prototype] defines: [options[k]] reads an inherited
    value for them. *)
Definition object_prototype_names : list string :=
  ["constructor"; "__defineGetter__"; "__defineSetter__"; "hasOwnProperty";
   "__lookupGetter__"; "__lookupSetter__"; "isPrototypeOf";
   "propertyIsEnumerable"; "toString"; "valueOf"; "__proto__"; "toLocaleString"].

Definition own_name (k : string) : bool :=
  negb (existsb (String.eqb k) object_prototype_names).

(** [parsed.options[key]] for a name outside [object_prototype_names], as
    are all the names the program reads ("input", "plan", "dry-run", ...). *)
Definition option_get (p : ParsedArgs) (key : string) : option string :=
  find_key key (options p).

Definition requireOption (p : ParsedArgs) (key : string) : exc string :=
  let missing := Throw ("Missing required option --" ++ key) in
  match option_get p key with
  | None => missing
  | Some v => if String.eqb v "" then missing else Ok v
  end.

Definition getBoolOption (p : ParsedArgs) (key : string) (defaultValue : bool) : bool :=
  if existsb (String.eqb key) (flags p) then true
  else
    match option_get p key with
    | None => defaultValue
    | Some value =>
        let normalized := toLowerCase value in
        String.eqb normalized "true" || String.eqb normalized "1" ||
        String.eqb normalized "yes"
    end.

(* ------------------------------------------------------------------------- *)
(** * main.ts: [pickManagementKey] and [redactEmail] *)

(** [pickManagementKey(fromArg)]; [fromEnv] is
    [process.env.CPA_MANAGEMENT_KEY]. *)
Definition pickManagementKey (fromArg fromEnv : option string) : exc string :=
  let missing := Throw "Management key is required. Pass --management-key (plaintext) or set CPA_MANAGEMENT_KEY." in
  let chosen := match fromArg with Some a => Some a | None => fromEnv end in
  match chosen with
  | None => missing
  | Some c => if String.eqb c "" then missing else Ok c
  end.

Definition redactEmail (email : string) : string :=
  let at_ := indexOf "@"%char email in
  if (at_ <=? 1)%Z then "***"
  else slice0 2 email ++ "***" ++ slice_from (Z.to_nat at_) email.

(* ------------------------------------------------------------------------- *)
(** * io.ts *)

Inductive ExtractErrorCode := MISSING_DELIMITER | INVALID_EMAIL | EMPTY_PASSWORD.

Record ExtractError := mkExtractError {
  err_line : nat;
  err_code : ExtractErrorCode;
  err_message : string
}.

Record ExtractReport := mkReport {
  rep_generated_at : string;
  total_lines : nat;
  valid_accounts : nat;
  invalid_lines : nat;
  duplicate_emails : Z;
  errors : list ExtractError
}.

(** The state of the [lines.forEach] loop: [errors], the [byEmail] map and
    the [invalid] counter. *)
Record MdState := mkMd {
  md_errors : list ExtractError;
  md_byEmail : list (string * AccountCredential);
  md_invalid : nat
}.

(** What the callback of [lines.forEach] does with a line: return at once
    (blank line), record an error, or [byEmail.set] an account. *)
Inductive LineOutcome :=
| LineBlank
| LineError (c : ExtractErrorCode) (m : string)
| LineAccount (a : AccountCredential).

Definition md_classify (defaultPlan line : string) : LineOutcome :=
  let text := trim line in
  if String.eqb text "" then LineBlank
  else
    let split := str_split "----" text in
    if (length split <? 2)%nat
    then LineError MISSING_DELIMITER "Line must contain delimiter ----"
    else
      let email := trim (nth 0 split "") in
      let password := String.concat "----" (tl split) in
      if negb (email_re email) then LineError INVALID_EMAIL "Invalid email format"
      else if String.eqb password "" then LineError EMPTY_PASSWORD "Password cannot be empty"
      else LineAccount (mkAccount email password (Some defaultPlan)).

(** The callback of [lines.forEach] on line [idx]. *)
Definition md_line (defaultPlan : string) (st : MdState) (idx : nat) (line : string) : MdState :=
  match md_classify defaultPlan line with
  | LineBlank => st
  | LineError c m =>
      mkMd (md_errors st ++ [mkExtractError (idx + 1) c m])%list (md_byEmail st)
        (S (md_invalid st))
  | LineAccount a =>
      mkMd (md_errors st) (map_set (toLowerCase (acc_email a)) a (md_byEmail st))
        (md_invalid st)
  end.

Fixpoint md_lines (defaultPlan : string) (st : MdState) (idx : nat) (lines : list string)
  : MdState :=
  match lines with
  | [] => st
  | l :: ls => md_lines defaultPlan (md_line defaultPlan st idx l) (S idx) ls
  end.

(** [parseMarkdownAccounts(inputPath, defaultPlan)] on the file's [content];
    [now] is [new Date().toISOString()]. *)
Definition parseMarkdownAccounts (content defaultPlan now : string)
  : list AccountCredential * ExtractReport :=
  let lines := split_lines content in
  let st := md_lines defaultPlan (mkMd [] [] 0) 0 lines in
  let accounts := map snd (md_byEmail st) in
  let nonblank := length (filter (fun l => negb (String.eqb (trim l) "")) lines) in
  (accounts,
   mkReport now (length lines) (length accounts) (md_invalid st)
     (Z.max 0 (Z.of_nat nonblank - Z.of_nat (md_invalid st) - Z.of_nat (length accounts)))
     (md_errors st)).

(** One row of the input array in [loadAccountJson]. *)
Definition load_row (defaultPlan : string) (row : jsval) : option AccountCredential :=
  match row with
  | JObj _ | JArr _ =>
      let email := match prop row "email" with JStr s => trim s | _ => "" end in
      let password := match prop row "password" with JStr s => s | _ => "" end in
      let plan := match prop row "plan" with
                  | JStr s => if String.eqb (trim s) "" then defaultPlan else trim s
                  | _ => defaultPlan
                  end in
      if String.eqb email "" || negb (email_re email) || String.eqb password ""
      then None
      else Some (mkAccount email password (Some plan))
  | _ => None
  end.

Fixpoint load_rows (defaultPlan : string) (rows : list jsval) : list AccountCredential :=
  match rows with
  | [] => []
  | row :: rest =>
      match load_row defaultPlan row with
      | Some a => a :: load_rows defaultPlan rest
      | None => load_rows defaultPlan rest
      end
  end.

(** [loadAccountJson(inputPath, defaultPlan)]; [parsed] is the outcome of
    [JSON.parse(fs.readFileSync(inputPath, "utf-8"))]. *)
Definition loadAccountJson (parsed : exc jsval) (defaultPlan : string)
  : exc (list AccountCredential) :=
  match parsed with
  | Throw m => Throw m
  | Ok (JArr rows) =>
      match load_rows defaultPlan rows with
      | [] => Throw "No valid accounts found in input JSON"
      | accounts => Ok accounts
      end
  | Ok _ => Throw "Account input must be a JSON array"
  end.

(** An account as [writeJsonFile] writes it and [JSON.parse] reads it back
    ([plan: undefined] is left out by [JSON.stringify]). *)
Definition account_to_js (a : AccountCredential) : jsval :=
  JObj ([("email", JStr (acc_email a)); ("password", JStr (acc_password a))] ++
        match acc_plan a with Some p => [("plan", JStr p)] | None => [] end).

(** [c] is in the class replaced by [makeTokenOutputPath]: backslash,
    slash, colon, star, question mark, double quote, [<], [>] or [|]. *)
Definition unsafe_char (c : ascii) : bool :=
  existsb (Ascii.eqb c)
    ["092"%char; "/"%char; ":"%char; "*"%char; "?"%char; "034"%char;
     "<"%char; ">"%char; "|"%char].

(** [email.replace(/[...]/g, "_")] with the class above *)
Fixpoint replace_unsafe (s : string) : string :=
  match s with
  | EmptyString => EmptyString
  | String c s' => String (if unsafe_char c then "_"%char else c) (replace_unsafe s')
  end.

Definition makeTokenOutputPath (outDir : string) (account : AccountCredential) : string :=
  let safeEmail := replace_unsafe (acc_email account) in
  path_join outDir
    ("codex-" ++ safeEmail ++ "-" ++
     match acc_plan account with Some p => p | None => "free" end ++ ".json").

(* ------------------------------------------------------------------------- *)
(** * cpamc: [JSON.stringify] and the auth status poll *)

Definition hex_digit (n : nat) : ascii :=
  ascii_of_nat (if (n <? 10)%nat then 48 + n else 87 + n)%nat.

(** One code unit in a string quoted by [JSON.stringify]. *)
Definition json_escape (c : ascii) : string :=
  let n := nat_of_ascii c in
  let bs := String "092"%char in
  if (n =? 34)%nat then bs (String c "")
  else if (n =? 92)%nat then bs (String c "")
  else if (n =? 8)%nat then bs "b"
  else if (n =? 12)%nat then bs "f"
  else if (n =? 10)%nat then bs "n"
  else if (n =? 13)%nat then bs "r"
  else if (n =? 9)%nat then bs "t"
  else if (n <? 32)%nat
  then bs ("u00" ++ String (hex_digit (n / 16)%nat) (String (hex_digit (n mod 16)%nat) ""))
  else String c "".

Fixpoint quote_body (s : string) : string :=
  match s with
  | EmptyString => EmptyString
  | String c s' => json_escape c ++ quote_body s'
  end.

Definition quote_json (s : string) : string :=
  String "034"%char (quote_body s ++ String "034"%char "").

Fixpoint digits_go (fuel : nat) (n : N) (acc : string) : string :=
  match fuel with
  | O => acc
  | S f =>
      let acc' := String (ascii_of_N (48 + N.modulo n 10)%N) acc in
      if (n <? 10)%N then acc' else digits_go f (N.div n 10) acc'
  end.

(** The decimal text of an integer. *)
Definition z_to_string (z : Z) : string :=
  let s := digits_go (S (N.size_nat (Z.abs_N z))) (Z.abs_N z) "" in
  if (z <? 0)%Z then "-" ++ s else s.

Definition is_digit (c : ascii) : bool :=
  let n := nat_of_ascii c in ((48 <=? n) && (n <=? 57))%nat.

Fixpoint dec_value (l : list ascii) (acc : Z) : Z :=
  match l with
  | [] => acc
  | c :: l' => dec_value l' (acc * 10 + Z.of_nat (nat_of_ascii c - 48))%Z
  end.

(** [k] names an array index: a canonical decimal below [2^32 - 1]. *)
Definition array_index (k : string) : option Z :=
  let l := list_ascii_of_string k in
  match l with
  | [] => None
  | c :: r =>
      if forallb is_digit l &&
         (negb (Ascii.eqb c "0"%char) || match r with [] => true | _ => false end)
      then let v := dec_value l 0 in if (v <? 4294967295)%Z then Some v else None
      else None
  end.

Fixpoint index_insert {V : Type} (i : Z) (kv : string * V) (l : list (Z * (string * V)))
  : list (Z * (string * V)) :=
  match l with
  | [] => [(i, kv)]
  | (j, kv') :: l' =>
      if (i <? j)%Z then (i, kv) :: l else (j, kv') :: index_insert i kv l'
  end.

Fixpoint index_keys {V : Type} (ps : list (string * V)) : list (Z * (string * V)) :=
  match ps with
  | [] => []
  | kv :: ps' =>
      match array_index (fst kv) with
      | Some i => index_insert i kv (index_keys ps')
      | None => index_keys ps'
      end
  end.

(** The order in which an object's own properties are enumerated: array
    indices ascending, then the other names in creation order. *)
Definition own_keys_order {V : Type} (ps : list (string * V)) : list (string * V) :=
  (map snd (index_keys ps) ++
   filter (fun kv => match array_index (fst kv) with Some _ => false | None => true end) ps)%list.

(** [JSON.stringify(v)] without indentation.  [undefined] is written [null]
    inside an array and a property holding it is left out; numbers of the
    model are integers. *)
Fixpoint stringify (v : jsval) : string :=
  match v with
  | JUndef | JNull => "null"
  | JBool b => if b then "true" else "false"
  | JNum z => z_to_string z
  | JStr s => quote_json s
  | JArr xs =>
      "[" ++ String.concat ","
               ((fix items (xs : list jsval) : list string :=
                   match xs with [] => [] | x :: xs' => stringify x :: items xs' end) xs)
      ++ "]"
  | JObj ps =>
      let members :=
        (fix go (ps : list (string * jsval)) : list (string * option string) :=
           match ps with
           | [] => []
           | (k, JUndef) :: ps' => (k, None) :: go ps'
           | (k, x) :: ps' => (k, Some (stringify x)) :: go ps'
           end) ps in
      "{" ++ String.concat ","
               (flat_map (fun kv => match snd kv with
                                    | Some t => [quote_json (fst kv) ++ ":" ++ t]
                                    | None => []
                                    end) (own_keys_order members))
      ++ "}"
  end.

(** [normalizeStatus(statusRaw)]: the two regular expressions are unanchored
    alternations, so each tests for one of its words inside the text. *)
Definition normalizeStatus (statusRaw : string) : CpamcStatus :=
  let s := toLowerCase statusRaw in
  if existsb (includes s) ["success"; "ok"; "done"; "completed"; "认证成功"; "已成功"]
  then StSuccess
  else if existsb (includes s) ["error"; "fail"; "failed"; "denied"; "invalid"; "认证失败"]
  then StError
  else StWaiting.

Fixpoint pickTextValue (values : list jsval) : string :=
  match values with
  | [] => ""
  | JStr s :: rest => if String.eqb (trim s) "" then pickTextValue rest else trim s
  | _ :: rest => pickTextValue rest
  end.

Record StatusPayload := mkPayload {
  statusRaw : string;
  pay_message : string;
  raw : string
}.

(** [parseStatusPayload(payload)]: an array or a non-null object takes the
    second branch, every other value the first. *)
Definition parseStatusPayload (payload : jsval) : StatusPayload :=
  match payload with
  | JObj _ | JArr _ =>
      let data := match prop payload "data" with
                  | JObj ps => Some (JObj ps)
                  | JArr xs => Some (JArr xs)
                  | _ => None
                  end in
      let dget k := match data with Some d => prop d k | None => JUndef end in
      let sr := pickTextValue [prop payload "status"; prop payload "state";
                               dget "status"; dget "state";
                               prop payload "result"; dget "result"] in
      let message := pickTextValue [prop payload "message"; prop payload "msg";
                                    prop payload "error"; dget "message";
                                    dget "msg"; dget "error"; JStr sr] in
      let raw := stringify payload in
      mkPayload (if String.eqb sr "" then raw else sr) message raw
  | JStr s => mkPayload s s s
  | _ => let raw := stringify payload in mkPayload raw raw raw
  end.

(** What [page.evaluate] returns from the [get-auth-status] fetch:
    [parsed] is [JSON.parse(text)], or [text] when that throws. *)
Record EvalResult := mkEval {
  httpStatus : Z;
  text : string;
  parsed : jsval
}.

(** The outcome of one pass of the polling loop: a [return] (or a throw),
    or [waitForTimeout(1000)] and another pass. *)
Inductive poll_step :=
| PollDone (r : exc (CpamcAuthStatus * option string))
| PollWait.

(** [/p1|p2|.../i.test(text)] for patterns of plain characters. *)
Definition test_i (pats : list string) (text : string) : bool :=
  existsb (fun p => includes (toLowerCase text) (toLowerCase p)) pats.

Section Poll.
Local Open Scope Z_scope.

(** The [state] argument ([string | undefined]). *)
Variable state : option string.
Variable timeoutMs : Z.
(** [Date.now()] when the loop starts. *)
Variable started : Z.
(** The [get-auth-status] [page.evaluate] at clock reading [t]; it throws
    when the fetch or the page fails. *)
Variable evaluate_status : Z -> exc EvalResult.
(** [document.body.innerText || ""] read by the other [page.evaluate] at
    clock reading [t]. *)
Variable body_text : Z -> exc string.

(** One pass of the loop at clock reading [t].  The result pairs the
    returned status with its [raw] field ([None]: not set). *)
Definition poll_once (t : Z) : poll_step :=
  let truthy := match state with Some st => negb (String.eqb st "") | None => false end in
  if truthy then
    match evaluate_status t with
    | Throw m => PollDone (Throw m)
    | Ok result =>
        let p := parseStatusPayload (parsed result) in
        let fromPayload := normalizeStatus (statusRaw p) in
        match fromPayload with
        | StSuccess | StError =>
            PollDone (Ok (mkStatus fromPayload
                            (Some (if String.eqb (pay_message p) "" then statusRaw p
                                   else pay_message p)),
                          Some (if String.eqb (raw p) "" then text result else raw p)))
        | StWaiting =>
            let fromRaw := normalizeStatus (text result) in
            match fromRaw with
            | StSuccess | StError =>
                PollDone (Ok (mkStatus fromRaw (Some (text result)), Some (text result)))
            | StWaiting => PollWait
            end
        end
    end
  else
    match body_text t with
    | Throw m => PollDone (Throw m)
    | Ok txt =>
        if test_i ["认证成功"; "Authentication successful"; "OAuth success"; "认证完成"] txt
        then PollDone (Ok (mkStatus StSuccess (Some (slice0 600 txt)), None))
        else if test_i ["认证失败"; "Authentication failed"; "OAuth failed"] txt
        then PollDone (Ok (mkStatus StError (Some (slice0 600 txt)), None))
        else PollWait
    end.

(** [poll_for t polls r]: the loop entered with [Date.now() = t] makes its
    passes at the clock readings [polls] and ends with [r]; a pass that
    waits takes [d] milliseconds and then [waitForTimeout(1000)]. *)
Inductive poll_for : Z -> list Z -> exc (CpamcAuthStatus * option string) -> Prop :=
| poll_timeout t :
    t - started >= timeoutMs ->
    poll_for t [] (Ok (mkStatus StWaiting (Some "Timed out waiting auth status"), None))
| poll_done t r :
    t - started < timeoutMs ->
    poll_once t = PollDone r ->
    poll_for t [t] r
| poll_again t d polls r :
    t - started < timeoutMs ->
    poll_once t = PollWait ->
    0 <= d ->
    poll_for (t + d + 1000) polls r ->
    poll_for t (t :: polls) r.

(** [pollCpamcAuthStatus(page, state, timeoutMs, managementKey)] ends with [r]. *)
Definition pollCpamcAuthStatus (polls : list Z) (r : exc (CpamcAuthStatus * option string)) : Prop :=
  poll_for started polls r.

End Poll.

(* ------------------------------------------------------------------------- *)
(** * config.ts: the flow configuration *)

(** [getDefaultFlowConfig()] *)
Definition getDefaultFlowConfig : jsval :=
  JObj [("loginUrl", JStr "https://auth.openai.com/log-in");
        ("loginButtonSelector", JStr "");
        ("emailSelector", JStr "input[type='email']");
        ("emailSubmitSelector", JStr "button[type='submit']");
        ("passwordSelector", JStr "input[type='password']");
        ("passwordSubmitSelector", JStr "button[type='submit']");
        ("successUrlIncludes", JArr [JStr "code="; JStr "callback"; JStr "redirect"]);
        ("challengeSelectors",
          JArr [JStr "iframe[src*='captcha']"; JStr "[data-testid*='captcha']";
                JStr "input[name='otp']"; JStr "input[autocomplete='one-time-code']"]);
        ("challengeTextPatterns",
          JArr [JStr "verification"; JStr "security check"; JStr "two-factor";
                JStr "2-step"; JStr "验证码"; JStr "验证"]);
        ("localStorageKeys",
          JArr [JStr "refresh_token"; JStr "access_token"; JStr "id_token";
                JStr "auth:refresh_token"; JStr "auth0.refresh_token"]);
        ("responseUrlPatterns",
          JArr [JStr "/oauth/token"; JStr "/token"; JStr "/authorize"; JStr "/signin"]);
        ("accountType", JStr "codex")].

(** The own enumerable properties copied by [{...v}], in enumeration order:
    an array or a string contributes its indices, a number or a boolean
    nothing. *)
Definition spread_props (v : jsval) : list (string * jsval) :=
  match v with
  | JObj ps => own_keys_order ps
  | JArr xs => combine (map (fun i => z_to_string (Z.of_nat i)) (seq 0 (length xs))) xs
  | JStr s => combine (map (fun i => z_to_string (Z.of_nat i)) (seq 0 (String.length s)))
                      (map (fun c => JStr (String c "")) (list_ascii_of_string s))
  | _ => []
  end.

(** An object literal: each property defined in turn, a repeated name
    keeping the position of its first definition. *)
Definition define_props (m l : list (string * jsval)) : list (string * jsval) :=
  fold_left (fun m kv => map_set (fst kv) (snd kv) m) l m.

(** The array fields that [mergeFlowConfig] sets with [??]. *)
Definition flow_array_keys : list string :=
  ["successUrlIncludes"; "challengeSelectors"; "challengeTextPatterns";
   "localStorageKeys"; "responseUrlPatterns"].

(** [mergeFlowConfig(base, override)] on the value [JSON.parse] returned;
    reading [override.successUrlIncludes] throws a TypeError when
    [override] is [null] or [undefined]. *)
Definition mergeFlowConfig (base override : jsval) : exc jsval :=
  match override with
  | JNull => Throw "Cannot read properties of null (reading 'successUrlIncludes')"
  | JUndef => Throw "Cannot read properties of undefined (reading 'successUrlIncludes')"
  | _ =>
      let spread := define_props [] (spread_props base ++ spread_props override) in
      let pick k := match prop override k with
                    | JUndef | JNull => prop base k
                    | v => v
                    end in
      Ok (JObj (define_props spread (map (fun k => (k, pick k)) flow_array_keys)))
  end.

(** [loadFlowConfig(configPath)]: [absPath] is [resolvePath(configPath)],
    [exists] is [fs.existsSync(absPath)] and [parsed] the outcome of
    [JSON.parse(fs.readFileSync(absPath, "utf-8"))]. *)
Definition loadFlowConfig (configPath : option string) (absPath : string) (exists_ : bool)
    (parsed : exc jsval) : exc jsval :=
  match configPath with
  | None => Ok getDefaultFlowConfig
  | Some p =>
      if String.eqb p "" then Ok getDefaultFlowConfig
      else if negb exists_ then Throw ("Flow config not found: " ++ absPath)
      else match parsed with
           | Throw m => Throw m
           | Ok v => mergeFlowConfig getDefaultFlowConfig v
           end
  end.

(** [parseScalar(raw)] of [loadCpaConfig]; [value.slice(1, -1)] drops the
    first and the last character. *)
Definition parseScalar (raw : string) : string :=
  let value := trim raw in
  if (startsWith value (String "034"%char "") && endsWith value (String "034"%char "")) ||
     (startsWith value "'" && endsWith value "'")
  then slice_from 1 (slice0 (String.length value - 1) value)
  else value.


(* ------------------------------------------------------------------------- *)
(** * Vocabulary of the further statements *)

(** The command-line tokens [--k1 v1 --k2 v2 ...]. *)
Fixpoint option_pairs (ps : list (string * string)) : list string :=
  match ps with
  | [] => []
  | (k, v) :: ps' => ("--" ++ k) :: v :: option_pairs ps'
  end.

(** An account as [parseMarkdownAccounts] keeps it. *)
Definition md_valid (defaultPlan : string) (a : AccountCredential) : Prop :=
  email_re (acc_email a) = true /\ trim (acc_email a) = acc_email a /\
  acc_password a <> "" /\ acc_plan a = Some defaultPlan.

(** The accounts of the lines that reach [byEmail.set], in line order. *)
Definition md_accepted (defaultPlan : string) (lines : list string) : list AccountCredential :=
  flat_map (fun l => match md_classify defaultPlan l with LineAccount a => [a] | _ => [] end)
    lines.

(* ========================================================================= *)
(** * Proofs *)

(** ** String helpers on sample inputs *)

Example basename_ex : basename "/home/u/.cli-proxy-api/codex-a.json" = "codex-a.json".
Proof. reflexivity. Qed.

Example lower_ex : toLowerCase "Timeout IN Auth URL" = "timeout in auth url".
Proof. reflexivity. Qed.

Example error_code_ex :
  error_code "CPAMC login failed: timeout waiting for dashboard" = LOGIN_REJECTED /\
  error_code "CPAMC OAuth auth URL not found" = CPAMC_LINK_NOT_FOUND.
Proof. split; reflexivity. Qed.

(** ** JS Map model *)

Lemma map_set_keys {V} (k : string) (v : V) m k' :
  In k' (map fst (map_set k v m)) <-> k' = k \/ In k' (map fst m).
Proof.
  induction m as [|[k0 v0] m IH]; simpl.
  - intuition congruence.
  - destruct (String.eqb_spec k k0) as [->|Hne]; simpl.
    + intuition congruence.
    + rewrite IH. intuition congruence.
Qed.

Lemma map_set_nodup {V} (k : string) (v : V) m :
  NoDup (map fst m) -> NoDup (map fst (map_set k v m)).
Proof.
  induction m as [|[k0 v0] m IH]; simpl; intro Hnd.
  - constructor; [simpl; tauto | constructor].
  - inversion Hnd as [|? ? Hnin Hnd']; subst.
    destruct (String.eqb_spec k k0) as [->|Hne]; simpl.
    + constructor; assumption.
    + constructor; [|apply IH; assumption].
      rewrite map_set_keys. intros [H|H]; [congruence|contradiction].
Qed.

Lemma map_set_find {V} (k : string) (v : V) m k' :
  find_key k' (map_set k v m) = if String.eqb k' k then Some v else find_key k' m.
Proof.
  induction m as [|[k0 v0] m IH]; simpl.
  - destruct (String.eqb k' k); reflexivity.
  - destruct (String.eqb_spec k k0) as [->|Hne]; simpl.
    + destruct (String.eqb k' k0); reflexivity.
    + rewrite IH. destruct (String.eqb_spec k' k0) as [->|]; [|reflexivity].
      apply String.eqb_neq in Hne. rewrite String.eqb_sym, Hne. reflexivity.
Qed.

Lemma map_set_in {V} (k : string) (v : V) m kv :
  In kv (map_set k v m) -> kv = (k, v) \/ In kv m.
Proof.
  induction m as [|[k0 v0] m IH]; simpl.
  - intuition congruence.
  - destruct (String.eqb_spec k k0) as [->|Hne]; simpl.
    + intuition congruence.
    + intros [H|H]; [tauto|]. destruct (IH H); tauto.
Qed.

Definition keyed (m : list (string * jsval)) : Prop :=
  Forall (fun kv => fst kv = accountKey (snd kv)) m.

Lemma map_set_keyed acc m :
  keyed m -> keyed (map_set (accountKey acc) acc m).
Proof.
  unfold keyed. rewrite !Forall_forall. intros H kv Hin.
  destruct (map_set_in _ _ _ _ Hin) as [->|Hin']; [reflexivity|auto].
Qed.

(** ** Merging by [accountKey] *)

Lemma merge_into_keys m l k :
  In k (map fst (merge_into m l)) <-> In k (map fst m) \/ In k (keys l).
Proof.
  revert m. induction l as [|a l IH]; intro m; simpl.
  - tauto.
  - unfold merge_into in *. simpl. rewrite IH, map_set_keys.
    intuition congruence.
Qed.

Lemma merge_into_nodup m l :
  NoDup (map fst m) -> NoDup (map fst (merge_into m l)).
Proof.
  revert m. induction l as [|a l IH]; intros m H; simpl; [assumption|].
  apply IH, map_set_nodup, H.
Qed.

Lemma merge_into_keyed m l : keyed m -> keyed (merge_into m l).
Proof.
  revert m. induction l as [|a l IH]; intros m H; simpl; [assumption|].
  apply IH, map_set_keyed, H.
Qed.

Lemma last_for_app k l a :
  last_for k (l ++ [a]) =
  if String.eqb (accountKey a) k then Some a else last_for k l.
Proof.
  unfold last_for, entry_for. rewrite rev_app_distr. reflexivity.
Qed.

Lemma merge_into_find m l k :
  find_key k (merge_into m l) =
  match last_for k l with Some v => Some v | None => find_key k m end.
Proof.
  revert m. induction l as [|a l IH] using rev_ind; intro m.
  - reflexivity.
  - unfold merge_into in *. rewrite fold_left_app. simpl.
    rewrite map_set_find, IH, last_for_app.
    rewrite String.eqb_sym.
    destruct (String.eqb (accountKey a) k); reflexivity.
Qed.

Lemma merge_into_in m l v :
  In v (map snd (merge_into m l)) -> In v (map snd m) \/ In v l.
Proof.
  revert m. induction l as [|a l IH]; intros m H; simpl in *; [tauto|].
  destruct (IH _ H) as [H'|H']; [|tauto].
  apply in_map_iff in H'. destruct H' as [kv [<- Hkv]].
  destruct (map_set_in _ _ _ _ Hkv) as [->|Hkv']; [simpl; tauto|].
  left. apply in_map. exact Hkv'.
Qed.

Lemma keyed_keys m : keyed m -> keys (map snd m) = map fst m.
Proof.
  unfold keyed, keys. induction 1 as [|[k v] m Hk _ IH]; simpl in *; [reflexivity|].
  rewrite IH, Hk. reflexivity.
Qed.

Lemma keyed_entry_for m k : keyed m -> entry_for k (map snd m) = find_key k m.
Proof.
  unfold keyed, entry_for. induction 1 as [|[k0 v] m Hk _ IH]; simpl in *; [reflexivity|].
  rewrite <- Hk, IH, String.eqb_sym. reflexivity.
Qed.

Lemma in_keys_last_for k l : In k (keys l) -> exists v, last_for k l = Some v.
Proof.
  unfold keys, last_for, entry_for. intro H.
  assert (H' : In k (map accountKey (rev l))) by (rewrite map_rev, <- in_rev; exact H).
  clear H. induction (rev l) as [|a r IH]; simpl in *; [contradiction|].
  destruct (String.eqb_spec (accountKey a) k); [eauto|].
  destruct H' as [H'|H']; [congruence|auto].
Qed.

Lemma not_in_keys_last_for k l : ~ In k (keys l) -> last_for k l = None.
Proof.
  unfold keys, last_for, entry_for. intro H.
  assert (H' : ~ In k (map accountKey (rev l))) by (rewrite map_rev, <- in_rev; exact H).
  clear H. induction (rev l) as [|a r IH]; simpl in *; [reflexivity|].
  destruct (String.eqb_spec (accountKey a) k); [tauto|auto].
Qed.

Lemma entry_for_in k l v : entry_for k l = Some v -> In v l /\ accountKey v = k.
Proof.
  unfold entry_for. intro H. destruct (find_some _ _ H) as [Hin Hk].
  apply String.eqb_eq in Hk. auto.
Qed.

Lemma entry_for_unique l a :
  NoDup (keys l) -> In a l -> entry_for (accountKey a) l = Some a.
Proof.
  unfold keys, entry_for. induction l as [|b l IH]; simpl; intros Hnd Hin; [contradiction|].
  inversion Hnd as [|? ? Hnin Hnd']; subst.
  destruct (String.eqb_spec (accountKey b) (accountKey a)) as [Hk|Hk].
  - destruct Hin as [->|Hin]; [reflexivity|].
    exfalso. apply Hnin. rewrite Hk. apply in_map. exact Hin.
  - destruct Hin as [->|Hin]; [congruence|auto].
Qed.

Lemma last_for_unique l a :
  NoDup (keys l) -> In a l -> last_for (accountKey a) l = Some a.
Proof.
  unfold last_for. intros Hnd Hin. apply entry_for_unique.
  - unfold keys in *. rewrite map_rev. apply NoDup_rev. exact Hnd.
  - rewrite <- in_rev. exact Hin.
Qed.

Lemma find_key_none {V} k (m : list (string * V)) :
  ~ In k (map fst m) -> find_key k m = None.
Proof.
  induction m as [|[k0 v] m IH]; simpl; intro H; [reflexivity|].
  destruct (String.eqb_spec k k0); [subst; tauto|auto].
Qed.

Lemma find_key_ext {V} (m1 m2 : list (string * V)) :
  NoDup (map fst m1) -> map fst m1 = map fst m2 ->
  (forall k, find_key k m1 = find_key k m2) -> m1 = m2.
Proof.
  revert m2. induction m1 as [|[k v] m1 IH]; intros [|[k' v'] m2] Hnd Hks Hf;
    simpl in *; try discriminate; [reflexivity|].
  injection Hks as <- Hks. inversion Hnd as [|? ? Hnin Hnd']; subst.
  pose proof (Hf k) as Hk. rewrite String.eqb_refl in Hk. injection Hk as <-.
  f_equal. apply IH; auto. intro k0.
  destruct (String.eqb_spec k0 k) as [->|Hne].
  - rewrite !find_key_none; [reflexivity| rewrite <- Hks |]; exact Hnin.
  - specialize (Hf k0). apply String.eqb_neq in Hne. rewrite Hne in Hf. exact Hf.
Qed.

Lemma map_set_present_keys {V} k (v : V) m :
  In k (map fst m) -> map fst (map_set k v m) = map fst m.
Proof.
  induction m as [|[k0 v0] m IH]; simpl; intro H; [contradiction|].
  destruct (String.eqb_spec k k0) as [->|Hne]; simpl; [reflexivity|].
  rewrite IH; [reflexivity|]. destruct H; [congruence|assumption].
Qed.

Lemma merge_into_present_keys m l :
  (forall k, In k (keys l) -> In k (map fst m)) ->
  map fst (merge_into m l) = map fst m.
Proof.
  revert m. induction l as [|a l IH]; intros m H; simpl; [reflexivity|].
  unfold merge_into in *. simpl.
  assert (Ha : In (accountKey a) (map fst m)) by (apply H; simpl; tauto).
  rewrite IH.
  - apply map_set_present_keys, Ha.
  - intros k Hk. rewrite map_set_present_keys by exact Ha. apply H. simpl. tauto.
Qed.

(** Merging the same scan twice changes nothing. *)
Lemma merge_into_again m0 l :
  NoDup (map fst m0) -> merge_into (merge_into m0 l) l = merge_into m0 l.
Proof.
  intro Hnd. apply find_key_ext.
  - apply merge_into_nodup, merge_into_nodup, Hnd.
  - apply merge_into_present_keys. intros k Hk.
    apply merge_into_keys. tauto.
  - intro k. rewrite !merge_into_find.
    destruct (last_for k l); reflexivity.
Qed.

Lemma map_set_absent {V} k (v : V) m :
  ~ In k (map fst m) -> map_set k v m = (m ++ [(k, v)])%list.
Proof.
  induction m as [|[k0 v0] m IH]; simpl; intro H; [reflexivity|].
  destruct (String.eqb_spec k k0) as [->|Hne]; [tauto|].
  rewrite IH; [reflexivity|tauto].
Qed.

(** Re-reading a written Map's values rebuilds the Map. *)
Lemma merge_into_values m :
  keyed m -> NoDup (map fst m) -> merge_into [] (map snd m) = m.
Proof.
  induction m as [|[k v] m IH] using rev_ind; intros Hk Hnd; [reflexivity|].
  unfold keyed in Hk. apply Forall_app in Hk. destruct Hk as [Hk1 Hk2].
  inversion Hk2 as [|? ? Hkv _]; subst. simpl in Hkv.
  rewrite map_app in Hnd. simpl in Hnd.
  apply NoDup_remove in Hnd. rewrite app_nil_r in Hnd. destruct Hnd as [Hnd Hnin].
  unfold merge_into in *. rewrite map_app, fold_left_app. simpl.
  rewrite IH by assumption. rewrite <- Hkv.
  apply map_set_absent. exact Hnin.
Qed.

Lemma entry_to_js_ok e : prior_entry_ok (entry_to_js e) = true.
Proof. destruct e as [? ? [|] ?]; reflexivity. Qed.

Lemma build_entries_ok dp dir listing now iso :
  Forall (fun v => prior_entry_ok v = true) (accounts (buildRotationIndex dp dir listing now iso)).
Proof.
  simpl. apply Forall_forall. intros v Hv.
  apply in_map_iff in Hv. destruct Hv as [fc [<- _]]. apply entry_to_js_ok.
Qed.

Lemma existing_ok prior : Forall (fun v => prior_entry_ok v = true) (existingAccounts prior).
Proof.
  apply Forall_forall. intros v Hv. unfold existingAccounts in Hv.
  destruct prior as [[p|]|]; try contradiction.
  destruct p; try contradiction;
    match type of Hv with
    | In v (match ?e with _ => _ end) => destruct e; try contradiction
    end;
    apply filter_In in Hv; tauto.
Qed.

Lemma written_keyed prior index :
  keyed (merge_into (merge_into [] (existingAccounts prior)) (accounts index)).
Proof. apply merge_into_keyed, merge_into_keyed. constructor. Qed.

Lemma written_nodup prior index :
  NoDup (map fst (merge_into (merge_into [] (existingAccounts prior)) (accounts index))).
Proof. apply merge_into_nodup, merge_into_nodup. constructor. Qed.

Lemma written_accounts prior index iso :
  accounts (writeRotationIndex prior index iso) =
  map snd (merge_into (merge_into [] (existingAccounts prior)) (accounts index)).
Proof. reflexivity. Qed.

(** ** Claim C3 *)

(** C3: with [A] the well-formed entries of the existing index and [B] the
    fresh scan, the accounts written by [writeRotationIndex] have key set
    [keys A ∪ keys B] with no key twice; for a key of [B] the written entry is
    [B]'s (its last one with that key); a key of [A] absent from the scan keeps
    [A]'s entry; and when [A]'s keys are distinct (as in every index this
    function writes) every entry of [A] whose artifact the scan no longer
    finds is written unchanged. *)
Theorem writeRotationIndex_merge prior index iso :
  let A := existingAccounts prior in
  let B := accounts index in
  let Mw := accounts (writeRotationIndex prior index iso) in
  (forall k, In k (keys Mw) <-> In k (keys A) \/ In k (keys B)) /\
  NoDup (keys Mw) /\
  (forall k, In k (keys B) -> entry_for k Mw = last_for k B) /\
  (forall k, In k (keys A) -> ~ In k (keys B) -> entry_for k Mw = last_for k A) /\
  (NoDup (keys A) -> forall a, In a A -> ~ In (accountKey a) (keys B) -> In a Mw).
Proof.
  intros A B Mw.
  pose proof (written_keyed prior index) as Hkd.
  pose proof (written_nodup prior index) as Hnd.
  assert (HMw : Mw = map snd (merge_into (merge_into [] A) B)) by reflexivity.
  assert (Hent : forall k, entry_for k Mw =
            match last_for k B with
            | Some v => Some v
            | None => match last_for k A with Some v => Some v | None => None end
            end).
  { intro k. rewrite HMw, keyed_entry_for by exact Hkd.
    rewrite !merge_into_find. reflexivity. }
  assert (Hkeys : forall k, In k (keys Mw) <-> In k (keys A) \/ In k (keys B)).
  { intro k. rewrite HMw, keyed_keys by exact Hkd.
    rewrite !merge_into_keys. simpl. tauto. }
  split; [exact Hkeys|]. split.
  { rewrite HMw, keyed_keys by exact Hkd. exact Hnd. }
  split.
  { intros k Hk. rewrite Hent. destruct (in_keys_last_for k B Hk) as [v ->]. reflexivity. }
  split.
  { intros k HkA HkB. rewrite Hent, (not_in_keys_last_for k B HkB).
    destruct (last_for k A); reflexivity. }
  intros HndA a Ha HaB.
  assert (E : entry_for (accountKey a) Mw = Some a).
  { rewrite Hent, (not_in_keys_last_for _ B HaB), last_for_unique by assumption.
    reflexivity. }
  apply entry_for_in in E. tauto.
Qed.

(** ** Claim C10 *)

(** C10: the entries kept from a previous index are exactly those of its
    [accounts] array that are objects with string [email] and [file]; after a
    run of the indexer no other entry of that array is in the written
    accounts, while every kept entry's key is. *)
Theorem writeRotationIndex_drops_malformed dp dir listing now iso1 iso2 prior :
  let Mw := accounts (rotate_index_run dp dir listing now iso1 iso2 prior) in
  existingAccounts prior = filter prior_entry_ok (prior_array prior) /\
  (forall x, In x (prior_array prior) -> prior_entry_ok x = false -> ~ In x Mw) /\
  (forall a, In a (existingAccounts prior) -> In (accountKey a) (keys Mw)).
Proof.
  intros Mw. split.
  { destruct prior as [[p|]|]; try reflexivity.
    destruct p; try reflexivity; simpl; destruct (assoc_get _ _); reflexivity. }
  split.
  - intros x _ Hbad Hin. unfold Mw, rotate_index_run in Hin.
    rewrite written_accounts in Hin.
    destruct (merge_into_in _ _ _ Hin) as [H|H].
    + apply merge_into_in in H. destruct H as [H|H]; [contradiction|].
      pose proof (existing_ok prior) as Hok. rewrite Forall_forall in Hok.
      rewrite (Hok x H) in Hbad. discriminate.
    + pose proof (build_entries_ok dp dir listing now iso1) as Hok.
      rewrite Forall_forall in Hok. rewrite (Hok x H) in Hbad. discriminate.
  - intros a Ha. unfold Mw, rotate_index_run.
    destruct (writeRotationIndex_merge prior (buildRotationIndex dp dir listing now iso1) iso2)
      as [Hk _].
    apply Hk. left. apply in_map. exact Ha.
Qed.

(** ** Claim C5 *)

Definition one_hot (v : jsval) : nat :=
  (if status_is "active" v then 1 else 0) + (if status_is "expired" v then 1 else 0) +
  (if status_is "disabled" v then 1 else 0) + (if status_is "invalid" v then 1 else 0).

Lemma count_status_cons s v l :
  count_status s (v :: l) = (if status_is s v then 1 else 0) + count_status s l.
Proof. unfold count_status. simpl. destruct (status_is s v); reflexivity. Qed.

Lemma counts_partition l :
  Forall (fun v => one_hot v = 1) l ->
  count_status "active" l + count_status "expired" l +
  count_status "disabled" l + count_status "invalid" l = length l.
Proof.
  induction 1 as [|v l Hv _ IH]; [reflexivity|].
  rewrite !count_status_cons. unfold one_hot in Hv. simpl. lia.
Qed.

Lemma entry_to_js_one_hot e : one_hot (entry_to_js e) = 1.
Proof. destruct e as [? ? [|] []]; reflexivity. Qed.

(** C5 (buildRotationIndex): [total] is the number of accounts, each count is
    the number of accounts with that status, and the four counts add up to
    [total]. *)
Theorem buildRotationIndex_counts dp dir listing now iso :
  let i := buildRotationIndex dp dir listing now iso in
  total i = length (accounts i) /\
  active i = count_status "active" (accounts i) /\
  expired i = count_status "expired" (accounts i) /\
  disabled i = count_status "disabled" (accounts i) /\
  invalid i = count_status "invalid" (accounts i) /\
  active i + expired i + disabled i + invalid i = total i.
Proof.
  intro i. repeat split; try reflexivity.
  unfold i, buildRotationIndex. simpl. apply counts_partition.
  apply Forall_forall. intros v Hv. apply in_map_iff in Hv.
  destruct Hv as [fc [<- _]]. apply entry_to_js_one_hot.
Qed.

(** C5 (writeRotationIndex), failing input: a previous index whose single
    entry has string [email] and [file] but the status ["revoked"].  The
    entry passes the filter, so the written index has [total = 1] while its
    four status counts are all 0. *)
Lemma writeRotationIndex_counts_foreign_status :
  let i := writeRotationIndex
             (Some (Some (JObj [("accounts",
                JArr [JObj [("email", JStr "a@example.com");
                            ("file", JStr "/auth/codex-a.json");
                            ("status", JStr "revoked")]])])))
             (buildRotationIndex (fun _ => None) "/auth" [] (fun _ => 0%Z) "t0") "t1" in
  total i = 1 /\ active i + expired i + disabled i + invalid i = 0.
Proof. vm_compute. split; reflexivity. Qed.

(** ** Claim C6 *)

Lemma filter_all {A} (f : A -> bool) l : Forall (fun v => f v = true) l -> filter f l = l.
Proof. induction 1 as [|v l Hv _ IH]; simpl; [reflexivity|]. rewrite Hv, IH. reflexivity. Qed.

Lemma written_entries_ok prior index iso :
  Forall (fun v => prior_entry_ok v = true) (accounts index) ->
  Forall (fun v => prior_entry_ok v = true) (accounts (writeRotationIndex prior index iso)).
Proof.
  intro HB. rewrite written_accounts. apply Forall_forall. intros v Hv.
  destruct (merge_into_in _ _ _ Hv) as [H|H].
  - apply merge_into_in in H. destruct H as [[]|H].
    pose proof (existing_ok prior) as Hok. rewrite Forall_forall in Hok. auto.
  - rewrite Forall_forall in HB. auto.
Qed.

(** C6 (as amended): running the indexer a second time on the same
    directory, against the index file the first run wrote, writes the same
    accounts list whenever the second scan classifies the artifacts as the
    first did. *)
Theorem rotate_index_idempotent dp dir listing now1 now2 iso1 iso2 iso3 iso4 prior
  (Hsame : accounts (buildRotationIndex dp dir listing now2 iso3) =
           accounts (buildRotationIndex dp dir listing now1 iso1)) :
  let i1 := rotate_index_run dp dir listing now1 iso1 iso2 prior in
  accounts (rotate_index_run dp dir listing now2 iso3 iso4 (Some (Some (index_to_js i1)))) =
  accounts i1.
Proof.
  intro i1. unfold rotate_index_run. rewrite !written_accounts. rewrite Hsame.
  set (B := accounts (buildRotationIndex dp dir listing now1 iso1)).
  set (m1 := merge_into (merge_into [] (existingAccounts prior)) B).
  assert (Hi1 : accounts i1 = map snd m1) by reflexivity.
  assert (Hex : existingAccounts (Some (Some (index_to_js i1))) = map snd m1).
  { rewrite <- Hi1. cbn [existingAccounts index_to_js prop assoc_get].
    change (filter prior_entry_ok (accounts i1) = accounts i1).
    apply filter_all. unfold i1, rotate_index_run.
    apply (written_entries_ok prior (buildRotationIndex dp dir listing now1 iso1) iso2).
    apply build_entries_ok. }
  rewrite Hex, merge_into_values.
  - unfold m1. rewrite merge_into_again; [reflexivity|].
    apply merge_into_nodup. constructor.
  - apply written_keyed.
  - apply written_nodup.
Qed.

Lemma rotate_index_idempotent_witness :
  let dp := fun _ : string => @None Z in
  let listing := [mkDirent "codex-a.json" true (Some (JObj [("email", JStr "a@example.com")]))] in
  accounts (buildRotationIndex dp "/auth" listing (fun _ => 7%Z) "t3") =
  accounts (buildRotationIndex dp "/auth" listing (fun _ => 5%Z) "t1") /\
  accounts (rotate_index_run dp "/auth" listing (fun _ => 7%Z) "t3" "t4"
     (Some (Some (index_to_js (rotate_index_run dp "/auth" listing (fun _ => 5%Z) "t1" "t2" None))))) =
  accounts (rotate_index_run dp "/auth" listing (fun _ => 5%Z) "t1" "t2" None).
Proof.
  intros dp listing. split; [reflexivity|].
  apply (rotate_index_idempotent dp "/auth" listing (fun _ => 5%Z) (fun _ => 7%Z) "t1" "t2" "t3" "t4" None).
  reflexivity.
Defined.

(** C6 as stated fails: the classification reads the clock.  An artifact
    whose [expired] timestamp (parsed to 1000) falls between the first run
    (clock 500) and the second (clock 1500) is written [active] by the first
    run and [expired] by the second, on an unchanged directory. *)
Lemma rotate_index_not_idempotent :
  let dp := fun s : string => if String.eqb s "2026-01-01T00:00:00Z" then Some 1000%Z else None in
  let listing := [mkDirent "codex-a.json" true
                    (Some (JObj [("email", JStr "a@example.com");
                                 ("expired", JStr "2026-01-01T00:00:00Z")]))] in
  let i1 := rotate_index_run dp "/auth" listing (fun _ => 500%Z) "t1" "t2" None in
  accounts (rotate_index_run dp "/auth" listing (fun _ => 1500%Z) "t3" "t4" (Some (Some (index_to_js i1))))
  <> accounts i1.
Proof. vm_compute. discriminate. Qed.

(** ** Claim C4 *)

Ltac case_matches :=
  repeat match goal with
         | |- context [match ?e with _ => _ end] =>
             lazymatch e with
             | context [match _ with _ => _ end] => fail
             | _ => destruct e
             end
         end.

Lemma classify_parsed dp now file data :
  data <> JNull -> data <> JUndef ->
  re_status (classify dp now file (Some data)) =
  if match prop data "disabled" with JBool true => true | _ => false end
  then Disabled
  else match prop data "expired" with
       | JStr x =>
           if String.eqb x "" then Active
           else match dp x with
                | Some exp => if Z.ltb exp now then Expired else Active
                | None => Active
                end
       | _ => Active
       end.
Proof.
  intros H1 H2. unfold classify.
  destruct data; try congruence; cbv zeta; case_matches; reflexivity.
Qed.

(** C4 (as amended): [classify] returns an entry for every file (it has no
    error result); the entry is [invalid] when the file cannot be read or
    parsed, or parses to [null]; for any other parsed document (JSON.parse
    never yields [undefined]) it is [disabled] when [disabled === true],
    otherwise [expired] when [expired] is a string parsing to a time strictly
    before the clock, and [active] in every remaining case.  [Date.parse("")]
    is [NaN]. *)
Theorem classify_status dp now file content (Hempty : dp "" = None) :
  let st := re_status (classify dp now file content) in
  ((content = None \/ content = Some JNull) -> st = Invalid) /\
  (forall data, content = Some data -> data <> JNull -> data <> JUndef ->
     prop data "disabled" = JBool true -> st = Disabled) /\
  (forall data x t, content = Some data -> data <> JNull -> data <> JUndef ->
     prop data "disabled" <> JBool true -> prop data "expired" = JStr x ->
     dp x = Some t -> (t < now)%Z -> st = Expired) /\
  (forall data, content = Some data -> data <> JNull -> data <> JUndef ->
     prop data "disabled" <> JBool true ->
     ~ (exists x t, prop data "expired" = JStr x /\ dp x = Some t /\ (t < now)%Z) ->
     st = Active).
Proof.
  intro st. unfold st. split; [|split; [|split]].
  - intros [-> | ->]; reflexivity.
  - intros data -> H1 H2 Hd. rewrite classify_parsed by assumption. rewrite Hd. reflexivity.
  - intros data x t -> H1 H2 Hd Hx Hp Hlt. rewrite classify_parsed by assumption.
    destruct (prop data "disabled") as [| |[|]| | | |]; try congruence;
      rewrite Hx; destruct (String.eqb_spec x "") as [->|_]; try congruence;
      rewrite Hp; apply Z.ltb_lt in Hlt; rewrite Hlt; reflexivity.
  - intros data -> H1 H2 Hd Hno. rewrite classify_parsed by assumption.
    destruct (prop data "disabled") as [| |[|]| | | |]; try congruence;
      destruct (prop data "expired") as [| | | |x| |] eqn:Hx; try reflexivity;
      destruct (String.eqb x ""); try reflexivity;
      destruct (dp x) as [t|] eqn:Hp; try reflexivity;
      destruct (Z.ltb_spec t now); try reflexivity;
      exfalso; apply Hno; eauto.
Qed.

Lemma classify_status_witness :
  let dp := fun s : string => if String.eqb s "2026-01-01T00:00:00Z" then Some 1000%Z else None in
  dp "" = None /\
  re_status (classify dp 2000 "/auth/codex-a.json"
               (Some (JObj [("expired", JStr "2026-01-01T00:00:00Z")]))) = Expired.
Proof.
  intro dp. split; [reflexivity|].
  destruct (classify_status dp 2000 "/auth/codex-a.json"
              (Some (JObj [("expired", JStr "2026-01-01T00:00:00Z")])) eq_refl)
    as [_ [_ [H _]]].
  apply (H _ "2026-01-01T00:00:00Z" 1000%Z eq_refl); try discriminate; reflexivity.
Defined.

(** C4 as stated fails: a file holding the JSON text [null] can be read and
    parsed, has no [disabled] and no [expired] field, yet classifies as
    [invalid] (reading [data.email] throws), not [active]. *)
Lemma classify_null_invalid :
  re_status (classify (fun _ => None) 0 "/auth/codex-a.json" (Some JNull)) = Invalid /\
  Invalid <> Active.
Proof. split; [reflexivity|discriminate]. Qed.

(** ** The per-account iteration *)

Definition pushed_result (dp : string) (a : AccountCredential) (r : AuthResult) : Prop :=
  res_email r = acc_email a /\ res_plan r = plan_of dp a /\
  (res_status r = Rsuccess \/ res_status r = Rfailed).

(** Every path through the [try] block either throws before pushing
    anything, or pushes exactly one result and then continues or ends. *)
Lemma account_body_cases gs tmo dp w a rs :
  (exists m, account_body gs tmo dp w a rs = (Raise m, rs)) \/
  (exists out r, account_body gs tmo dp w a rs = (out, (rs ++ [r])%list) /\
                 (forall m, out <> Raise m) /\ pushed_result dp a r).
Proof.
  unfold account_body, bind, await, push, continue_, ret.
  case_matches;
    first
      [ left; eexists; reflexivity
      | right; do 2 eexists; split; [reflexivity|];
        split; [intros ? ?; discriminate|];
        unfold pushed_result; simpl; auto ].
Qed.

Lemma iteration_appends gs tmo dp w a rs :
  exists r, iteration gs tmo dp w a rs = (rs ++ [r])%list /\ pushed_result dp a r.
Proof.
  unfold iteration.
  destruct (account_body_cases gs tmo dp w a rs) as [[m ->]|[out [r [-> [Hout Hr]]]]].
  - eexists. split; [reflexivity|]. unfold pushed_result, failed. simpl. auto.
  - exists r. split; [|exact Hr]. destruct out; [reflexivity|reflexivity|].
    exfalso. eapply Hout. reflexivity.
Qed.

Lemma auth_loop_done gs tmo dp worlds i accts rs :
  (forall j, (j < length accts)%nat -> w_newContext (worlds (i + j)%nat) = Ok tt) ->
  exists added,
    auth_loop gs tmo dp worlds i accts rs = LoopDone (rs ++ added)%list /\
    map res_email added = map acc_email accts /\
    map res_plan added = map (plan_of dp) accts /\
    Forall (fun r => res_status r = Rsuccess \/ res_status r = Rfailed) added.
Proof.
  revert i rs. induction accts as [|a rest IH]; intros i rs Hctx; simpl.
  - exists []. rewrite app_nil_r. repeat split; constructor.
  - pose proof (Hctx 0%nat ltac:(simpl; lia)) as H0. rewrite Nat.add_0_r in H0.
    rewrite H0.
    destruct (iteration_appends gs tmo dp (worlds i) a rs) as [r [Hit [He [Hp Hs]]]].
    rewrite Hit.
    destruct (IH (S i) (rs ++ [r])%list) as [added [Hl [Hm1 [Hm2 Hf]]]].
    { intros j Hj. replace (S i + j)%nat with (i + S j)%nat by lia.
      apply Hctx. simpl. lia. }
    exists (r :: added). rewrite Hl, <- app_assoc. simpl.
    repeat split; try (f_equal; assumption). constructor; assumption.
Qed.

(** The reconciliation after the login flow, for an iteration whose calls up
    to the console status poll all return. *)
Lemma iteration_reconcile gs tmo dp w a rs authUrl state fr c status
  (H1 : w_controlPage w = Ok tt) (H2 : w_ensureLogin w = Ok tt)
  (H3 : w_gotoOauth w = Ok tt) (H4 : w_startOauth w = Ok authUrl)
  (H5 : gs authUrl = Some state) (H6 : w_authPage w = Ok tt)
  (H7 : w_runLoginFlow w = Ok fr)
  (H8 : fr_challenge fr = false -> w_detectChallenge w = Ok c)
  (H9 : w_poll w (if fr_invalidCredentials fr || (fr_challenge fr || c)
                  then Z.min tmo 30000 else tmo) = Ok status) :
  let ch := fr_challenge fr || c in
  exists r,
    iteration gs tmo dp w a rs = (rs ++ [r])%list /\ res_email r = acc_email a /\
    (fr_invalidCredentials fr = true ->
       res_status r = Rfailed /\ res_code r = Some LOGIN_REJECTED) /\
    (fr_invalidCredentials fr = false -> ch = true ->
       res_status r = Rfailed /\ res_code r = Some CHALLENGE_REQUIRED) /\
    (fr_invalidCredentials fr = false -> ch = false -> st_status status <> StSuccess ->
       res_status r = Rfailed /\ res_code r = Some CPAMC_OAUTH_FAILED) /\
    (fr_invalidCredentials fr = false -> ch = false -> st_status status = StSuccess ->
       match w_waitFile w with
       | Ok (Some f) => res_status r = Rsuccess /\ res_file r = Some f
       | Ok None => res_status r = Rfailed /\ res_code r = Some WRITE_FAILED
       | Throw m => res_status r = Rfailed /\ res_code r = Some (error_code m)
       end).
Proof.
  intro ch. unfold ch, iteration, account_body, bind, await, push, continue_, ret.
  rewrite H1, H2, H3, H4, H5, H6, H7.
  destruct (fr_challenge fr) eqn:Hc.
  - simpl orb in *. rewrite H9.
    destruct (fr_invalidCredentials fr);
      (eexists; split; [reflexivity|]; simpl; repeat split; intros; try discriminate; try reflexivity).
  - rewrite (H8 eq_refl). simpl orb in *. rewrite H9.
    destruct (fr_invalidCredentials fr), c;
      try (eexists; split; [reflexivity|]; simpl; repeat split; intros; try discriminate; try reflexivity; fail).
    destruct (st_status status) eqn:Hs;
      try (eexists; split; [reflexivity|]; simpl; repeat split; intros; try discriminate; try congruence; fail).
    destruct (w_waitFile w) as [[f|]|m];
      eexists; (split; [reflexivity|]); simpl; repeat split; intros;
      first [reflexivity | congruence].
Qed.

(** ** Claim C1 *)

(** C1 (as amended): when the browser launches and the browsing context of
    every account is created, the run completes with a summary holding
    exactly one result per input account, in input order (same email and
    plan), each with status [success] or [failed], whatever each account's
    calls return or throw inside the per-account [try]; the command returns
    after writing that summary when closing the browser and writing the
    report succeed, and throws the error of [browser.close()] or, after it,
    of [writeJsonFile] otherwise. *)
Theorem runAuth_one_result_per_account gs tmo dp dry worlds accts
  (Hctx : forall j, (j < length accts)%nat -> w_newContext (worlds j) = Ok tt) :
  exists s,
    (forall close write,
       runAuth gs tmo dp false (Ok tt) close write dry worlds accts =
         match close, write with
         | Throw m, _ => Throw m
         | Ok _, Throw m => Throw m
         | Ok _, Ok _ => Ok s
         end) /\
    runAuth gs tmo dp false (Ok tt) (Ok tt) (Ok tt) dry worlds accts = Ok s /\
    sum_total s = length accts /\
    map res_email (sum_results s) = map acc_email accts /\
    map res_plan (sum_results s) = map (plan_of dp) accts /\
    Forall (fun r => res_status r = Rsuccess \/ res_status r = Rfailed) (sum_results s).
Proof.
  destruct (auth_loop_done gs tmo dp worlds 0 accts [] Hctx) as [added [Hl [He [Hp Hs]]]].
  unfold runAuth. rewrite Hl. simpl.
  eexists. split; [intros [] []; reflexivity|]. split; [reflexivity|]. simpl.
  repeat split; try assumption.
  rewrite <- (length_map res_email added), He, length_map. reflexivity.
Qed.

Lemma runAuth_one_result_per_account_witness :
  let worlds := fun j : nat =>
    match j with
    | 1%nat => mkWorld (Ok tt) (Ok tt) (Throw "CPAMC login failed: invalid management key")
                 (Ok tt) (Ok sample_url) (Ok tt) (Ok (mkFlow "" false false None))
                 (Ok false) (fun _ => Ok (mkStatus StSuccess None)) (Ok None) "t2" "t3"
    | _ => world_ok
    end in
  (forall j, (j < length sample_accounts)%nat -> w_newContext (worlds j) = Ok tt) /\
  exists s,
    (forall close write,
       runAuth sample_state 120000 "free" false (Ok tt) close write sample_dry worlds
         sample_accounts =
         match close, write with
         | Throw m, _ => Throw m
         | Ok _, Throw m => Throw m
         | Ok _, Ok _ => Ok s
         end) /\
    runAuth sample_state 120000 "free" false (Ok tt) (Ok tt) (Ok tt) sample_dry worlds sample_accounts = Ok s /\
    sum_total s = length sample_accounts /\
    map res_email (sum_results s) = map acc_email sample_accounts /\
    map res_plan (sum_results s) = map (plan_of "free") sample_accounts /\
    Forall (fun r => res_status r = Rsuccess \/ res_status r = Rfailed) (sum_results s).
Proof.
  intro worlds.
  assert (H : forall j, (j < length sample_accounts)%nat -> w_newContext (worlds j) = Ok tt).
  { intros [|[|[|j]]] Hj; simpl in Hj; try reflexivity; lia. }
  split; [exact H|].
  exact (runAuth_one_result_per_account sample_state 120000 "free" sample_dry worlds
           sample_accounts H).
Defined.

(** C1 as stated fails: [browser.newContext()] is awaited before the
    per-account [try]; when it throws for the only account, that account gets
    no result and the error leaves [runAuthCommand] without a report. *)
Lemma runAuth_context_failure_no_result :
  let worlds := fun _ : nat =>
    mkWorld (Throw "browser.newContext: Target page, context or browser has been closed")
      (Ok tt) (Ok tt) (Ok tt) (Ok sample_url) (Ok tt) (Ok (mkFlow "" false false None))
      (Ok false) (fun _ => Ok (mkStatus StSuccess None)) (Ok None) "t0" "t1" in
  auth_loop sample_state 120000 "free" worlds 0 [mkAccount "a@example.com" "pw-a" None] [] =
    LoopAborted "browser.newContext: Target page, context or browser has been closed" [] /\
  runAuth sample_state 120000 "free" false (Ok tt) (Ok tt) (Ok tt) sample_dry worlds
    [mkAccount "a@example.com" "pw-a" None] =
    Throw "browser.newContext: Target page, context or browser has been closed".
Proof. split; reflexivity. Qed.

(** ** Claim C2 *)

(** C2: in an iteration whose calls up to the console status poll return,
    the one result recorded follows the precedence: invalid credentials from
    the flow give [LOGIN_REJECTED] whatever the console reports; otherwise a
    challenge (from the flow or the page check) gives [CHALLENGE_REQUIRED];
    otherwise a console status [error] or [waiting] gives
    [CPAMC_OAUTH_FAILED]; only otherwise is the artifact verified, giving
    [success] with the file found, [WRITE_FAILED] when none is found, or the
    [catch] block's code when the verifier throws. *)
Theorem reconcile_precedence gs tmo dp w a rs authUrl state fr c status
  (H1 : w_controlPage w = Ok tt) (H2 : w_ensureLogin w = Ok tt)
  (H3 : w_gotoOauth w = Ok tt) (H4 : w_startOauth w = Ok authUrl)
  (H5 : gs authUrl = Some state) (H6 : w_authPage w = Ok tt)
  (H7 : w_runLoginFlow w = Ok fr)
  (H8 : fr_challenge fr = false -> w_detectChallenge w = Ok c)
  (H9 : w_poll w (if fr_invalidCredentials fr || (fr_challenge fr || c)
                  then Z.min tmo 30000 else tmo) = Ok status) :
  let ch := fr_challenge fr || c in
  exists r,
    iteration gs tmo dp w a rs = (rs ++ [r])%list /\ res_email r = acc_email a /\
    (fr_invalidCredentials fr = true ->
       res_status r = Rfailed /\ res_code r = Some LOGIN_REJECTED) /\
    (fr_invalidCredentials fr = false -> ch = true ->
       res_status r = Rfailed /\ res_code r = Some CHALLENGE_REQUIRED) /\
    (fr_invalidCredentials fr = false -> ch = false -> st_status status <> StSuccess ->
       res_status r = Rfailed /\ res_code r = Some CPAMC_OAUTH_FAILED) /\
    (fr_invalidCredentials fr = false -> ch = false -> st_status status = StSuccess ->
       match w_waitFile w with
       | Ok (Some f) => res_status r = Rsuccess /\ res_file r = Some f
       | Ok None => res_status r = Rfailed /\ res_code r = Some WRITE_FAILED
       | Throw m => res_status r = Rfailed /\ res_code r = Some (error_code m)
       end).
Proof. exact (iteration_reconcile gs tmo dp w a rs authUrl state fr c status H1 H2 H3 H4 H5 H6 H7 H8 H9). Qed.

(** The flow reports invalid credentials while the console reports success:
    the recorded code is [LOGIN_REJECTED]. *)
Lemma reconcile_precedence_witness :
  let fr := mkFlow "https://auth.openai.com/log-in/password" false true None in
  let w := mkWorld (Ok tt) (Ok tt) (Ok tt) (Ok tt) (Ok sample_url) (Ok tt) (Ok fr)
             (Ok false) (fun _ => Ok (mkStatus StSuccess (Some "ok")))
             (Ok (Some "/auth/codex-a.json")) "t0" "t1" in
  exists r,
    iteration sample_state 120000 "free" w (mkAccount "a@example.com" "pw" None) [] = [r] /\
    res_status r = Rfailed /\ res_code r = Some LOGIN_REJECTED.
Proof.
  intros fr w.
  destruct (reconcile_precedence sample_state 120000 "free" w
              (mkAccount "a@example.com" "pw" None) [] sample_url "s1" fr false
              (mkStatus StSuccess (Some "ok")) eq_refl eq_refl eq_refl eq_refl eq_refl
              eq_refl eq_refl (fun _ => eq_refl) eq_refl)
    as [r [Hit [_ [Hinv _]]]].
  exists r. split; [exact Hit|]. apply Hinv. reflexivity.
Defined.

(** ** Claim C7 *)

(** C7 (as amended): when the browsing context of an account is created and
    its [try] block throws, the loop records exactly one [failed] result for
    it, with the code chosen from the message by [error_code], and goes on
    with the next account. *)
Theorem caught_error_recorded gs tmo dp worlds i a rest rs msg
  (Hctx : w_newContext (worlds i) = Ok tt)
  (Hraise : fst (account_body gs tmo dp (worlds i) a rs) = Raise msg) :
  auth_loop gs tmo dp worlds i (a :: rest) rs =
  auth_loop gs tmo dp worlds (S i) rest
    (rs ++ [failed dp (worlds i) a (error_code msg) msg])%list /\
  res_status (failed dp (worlds i) a (error_code msg) msg) = Rfailed /\
  res_code (failed dp (worlds i) a (error_code msg) msg) = Some (error_code msg).
Proof.
  simpl. rewrite Hctx. unfold iteration.
  destruct (account_body_cases gs tmo dp (worlds i) a rs) as [[m Hb]|[out [r [Hb [Hout _]]]]];
    rewrite Hb in *; simpl in Hraise.
  - injection Hraise as ->. auto.
  - subst out. exfalso. eapply Hout. reflexivity.
Qed.

Lemma caught_error_recorded_witness :
  let w := mkWorld (Ok tt) (Ok tt) (Throw "CPAMC login failed: invalid management key")
             (Ok tt) (Ok sample_url) (Ok tt) (Ok (mkFlow "" false false None))
             (Ok false) (fun _ => Ok (mkStatus StSuccess None)) (Ok None) "t0" "t1" in
  let worlds := fun j : nat => match j with O => w | _ => world_ok end in
  let a := mkAccount "a@example.com" "pw-a" None in
  w_newContext (worlds O) = Ok tt /\
  fst (account_body sample_state 120000 "free" (worlds O) a []) =
    Raise "CPAMC login failed: invalid management key" /\
  error_code "CPAMC login failed: invalid management key" = CPAMC_LOGIN_FAILED /\
  auth_loop sample_state 120000 "free" worlds O (a :: []) [] =
  auth_loop sample_state 120000 "free" worlds 1 []
    [failed "free" (worlds O) a (error_code "CPAMC login failed: invalid management key")
       "CPAMC login failed: invalid management key"].
Proof.
  intros w worlds a.
  split; [reflexivity|]. split; [reflexivity|]. split; [reflexivity|].
  apply (caught_error_recorded sample_state 120000 "free" worlds O a [] []
           "CPAMC login failed: invalid management key" eq_refl eq_refl).
Defined.

(** C7 as stated fails: an error thrown while creating the second account's
    browsing context is not caught; the loop stops with the first account's
    result only and the third account is never processed. *)
Lemma context_error_aborts_batch :
  let worlds := fun j : nat =>
    match j with
    | 1%nat => mkWorld (Throw "browser.newContext: Target page, context or browser has been closed")
                 (Ok tt) (Ok tt) (Ok tt) (Ok sample_url) (Ok tt)
                 (Ok (mkFlow "" false false None)) (Ok false)
                 (fun _ => Ok (mkStatus StSuccess None)) (Ok None) "t2" "t3"
    | _ => world_ok
    end in
  exists r,
    auth_loop sample_state 120000 "free" worlds 0 sample_accounts [] =
    LoopAborted "browser.newContext: Target page, context or browser has been closed" [r] /\
    res_email r = "a@example.com".
Proof. eexists. split; reflexivity. Qed.

(** ** Claim C8 *)

Lemma scan_files_found authDir lower ds f :
  scan_files authDir lower ds = Some f ->
  exists d, In d ds /\ is_artifact_name d = true /\ email_matches lower (d_content d) = true /\
            f = path_join authDir (d_name d).
Proof.
  induction ds as [|d ds IH]; simpl; [discriminate|].
  destruct (is_artifact_name d && email_matches lower (d_content d)) eqn:E.
  - intro H. injection H as <-. apply andb_true_iff in E. exists d. tauto.
  - intro H. destruct (IH H) as [d' Hd']. exists d'. tauto.
Qed.

Lemma email_matches_true lower c :
  email_matches lower c = true ->
  exists data e, c = Some data /\ prop data "email" = JStr e /\ toLowerCase e = lower.
Proof.
  unfold email_matches. destruct c as [data|]; [|discriminate].
  intro H. exists data.
  destruct data; try discriminate;
    destruct (prop _ "email") eqn:Ee; try discriminate;
    apply String.eqb_eq in H; eauto.
Qed.

Lemma wait_for_polls authDir email tmo started readdir t polls r :
  wait_for authDir email tmo started readdir t polls r ->
  (forall tp, In tp polls -> (t <= tp /\ tp - started < tmo)%Z) /\ spaced polls /\
  (r = Ok None -> forall tp, In tp polls ->
     exists ds, readdir tp = Ok ds /\ scan_files authDir (toLowerCase email) ds = None) /\
  (forall m, r = Throw m -> exists tp, In tp polls /\ readdir tp = Throw m) /\
  (forall f, r = Ok (Some f) -> exists tp ds, In tp polls /\ readdir tp = Ok ds /\
                                   scan_files authDir (toLowerCase email) ds = Some f).
Proof.
  induction 1 as [t Ht|t m Ht Hr|t ds f Ht Hr Hs|t ds d polls r Ht Hr Hs Hd _ IH].
  - simpl. repeat split; intros; try contradiction; discriminate.
  - simpl. repeat split; intros; try discriminate.
    + destruct H as [<-|[]]. lia.
    + destruct H as [<-|[]]. lia.
    + injection H as <-. exists t. tauto.
  - simpl. repeat split; intros; try discriminate.
    + destruct H as [<-|[]]. lia.
    + destruct H as [<-|[]]. lia.
    + injection H as <-. exists t, ds. tauto.
  - destruct IH as [Hin [Hsp [Hnone [Hthrow Hfound]]]].
    refine (conj _ (conj _ (conj _ (conj _ _)))).
    + intros tp [<-|Htp]; [lia|]. specialize (Hin tp Htp). lia.
    + simpl. destruct polls as [|t2 polls']; [exact I|].
      split; [|exact Hsp]. specialize (Hin t2 (or_introl eq_refl)). lia.
    + intros Hn tp [<-|Htp]; [exists ds; tauto|]. exact (Hnone Hn tp Htp).
    + intros m Hm. destruct (Hthrow m Hm) as [tp [Htp Hrd]]. exists tp. simpl. tauto.
    + intros f Hf. destruct (Hfound f Hf) as [tp [ds' [Htp Hrd]]]. exists tp, ds'. simpl. tauto.
Qed.

(** C8 (as amended): [waitForAuthFileByEmail] polls while less than the
    timeout has elapsed, at clock readings at least one second apart; a file
    it returns was listed in some poll as a regular [codex-*.json] file whose
    parsed [email] is case-insensitively the account's; files that cannot be
    read or parsed (or parse to [null]) are skipped; a [None] result means no
    poll found a match; when listing the directory throws, that error is the
    result.  An iteration that reaches the verifier with console success and
    gets [None] records [WRITE_FAILED]; one whose wait ends in the thrown
    error [m] of the listing records the code that the per-account [catch]
    derives from [m] by the keyword rules ([error_code m], [UNKNOWN] for a
    message such as [ENOENT]). *)
Theorem waitForAuthFileByEmail_spec authDir email tmo started readdir polls r
  (H : waitForAuthFileByEmail authDir email tmo started readdir polls r) :
  (forall f, r = Ok (Some f) ->
     exists tp ds d data e,
       In tp polls /\ readdir tp = Ok ds /\ In d ds /\ d_isFile d = true /\
       startsWith (d_name d) "codex-" = true /\ endsWith (d_name d) ".json" = true /\
       f = path_join authDir (d_name d) /\ d_content d = Some data /\
       prop data "email" = JStr e /\ toLowerCase e = toLowerCase email) /\
  (forall tp, In tp polls -> (started <= tp /\ tp - started < tmo)%Z) /\
  spaced polls /\
  (forall d ds, (d_content d = None \/ d_content d = Some JNull) ->
     scan_files authDir (toLowerCase email) (d :: ds) = scan_files authDir (toLowerCase email) ds) /\
  (r = Ok None -> forall tp, In tp polls ->
     exists ds, readdir tp = Ok ds /\ scan_files authDir (toLowerCase email) ds = None) /\
  (forall m, r = Throw m -> exists tp, In tp polls /\ readdir tp = Throw m) /\
  (forall gs tmo' dp w a rs authUrl state fr c status,
     w_controlPage w = Ok tt -> w_ensureLogin w = Ok tt -> w_gotoOauth w = Ok tt ->
     w_startOauth w = Ok authUrl -> gs authUrl = Some state -> w_authPage w = Ok tt ->
     w_runLoginFlow w = Ok fr -> (fr_challenge fr = false -> w_detectChallenge w = Ok c) ->
     w_poll w (if fr_invalidCredentials fr || (fr_challenge fr || c)
               then Z.min tmo' 30000 else tmo') = Ok status ->
     fr_invalidCredentials fr = false -> fr_challenge fr || c = false ->
     st_status status = StSuccess -> w_waitFile w = r -> r = Ok None ->
     exists res, iteration gs tmo' dp w a rs = (rs ++ [res])%list /\
                 res_status res = Rfailed /\ res_code res = Some WRITE_FAILED) /\
  (forall gs tmo' dp w a rs authUrl state fr c status m,
     w_controlPage w = Ok tt -> w_ensureLogin w = Ok tt -> w_gotoOauth w = Ok tt ->
     w_startOauth w = Ok authUrl -> gs authUrl = Some state -> w_authPage w = Ok tt ->
     w_runLoginFlow w = Ok fr -> (fr_challenge fr = false -> w_detectChallenge w = Ok c) ->
     w_poll w (if fr_invalidCredentials fr || (fr_challenge fr || c)
               then Z.min tmo' 30000 else tmo') = Ok status ->
     fr_invalidCredentials fr = false -> fr_challenge fr || c = false ->
     st_status status = StSuccess -> w_waitFile w = r -> r = Throw m ->
     exists res, iteration gs tmo' dp w a rs = (rs ++ [res])%list /\
                 res_status res = Rfailed /\ res_code res = Some (error_code m)).
Proof.
  destruct (wait_for_polls _ _ _ _ _ _ _ _ H) as [Hin [Hsp [Hnone [Hthrow Hfound]]]].
  split.
  { intros f Hf. destruct (Hfound f Hf) as [tp [ds [Htp [Hrd Hs]]]].
    destruct (scan_files_found _ _ _ _ Hs) as [d [Hd [Hart [Hem ->]]]].
    destruct (email_matches_true _ _ Hem) as [data [e [Hc [He Hl]]]].
    unfold is_artifact_name in Hart. apply andb_true_iff in Hart.
    destruct Hart as [Hart He2]. apply andb_true_iff in Hart. destruct Hart as [Hf1 Hs1].
    exists tp, ds, d, data, e. tauto. }
  split; [exact Hin|]. split; [exact Hsp|]. split.
  { intros d ds [Hc|Hc]; simpl; rewrite Hc; simpl; rewrite andb_false_r; reflexivity. }
  split; [exact Hnone|]. split; [exact Hthrow|]. split.
  { intros gs tmo' dp w a rs authUrl state fr c status H1 H2 H3 H4 H5 H6 H7 H8 H9
      Hinv Hch Hst Hw Hr.
    destruct (iteration_reconcile gs tmo' dp w a rs authUrl state fr c status
                H1 H2 H3 H4 H5 H6 H7 H8 H9) as [res [Hit [_ [_ [_ [_ Hsucc]]]]]].
    exists res. split; [exact Hit|].
    specialize (Hsucc Hinv Hch Hst). rewrite Hw, Hr in Hsucc. exact Hsucc. }
  intros gs tmo' dp w a rs authUrl state fr c status m H1 H2 H3 H4 H5 H6 H7 H8 H9
    Hinv Hch Hst Hw Hr.
  destruct (iteration_reconcile gs tmo' dp w a rs authUrl state fr c status
              H1 H2 H3 H4 H5 H6 H7 H8 H9) as [res [Hit [_ [_ [_ [_ Hsucc]]]]]].
  exists res. split; [exact Hit|].
  specialize (Hsucc Hinv Hch Hst). rewrite Hw, Hr in Hsucc. exact Hsucc.
Qed.

Lemma waitForAuthFileByEmail_spec_witness :
  let listing := [mkDirent "codex-a@example.com-free.json" true
                    (Some (JObj [("email", JStr "A@Example.com")]))] in
  let readdir := fun t : Z => if Z.ltb t 1000 then Ok [] else Ok listing in
  waitForAuthFileByEmail "/auth" "a@example.com" 5000 0 readdir [0; 1000]%Z
    (Ok (Some "/auth/codex-a@example.com-free.json")) /\
  spaced [0; 1000]%Z.
Proof.
  intros listing readdir.
  assert (Hw : waitForAuthFileByEmail "/auth" "a@example.com" 5000 0 readdir [0; 1000]%Z
                 (Ok (Some "/auth/codex-a@example.com-free.json"))).
  { unfold waitForAuthFileByEmail.
    apply (wait_again _ _ _ _ _ 0 [] 0); try reflexivity; try lia.
    apply (wait_found _ _ _ _ _ 1000 listing); reflexivity. }
  split; [exact Hw|].
  destruct (waitForAuthFileByEmail_spec "/auth" "a@example.com" 5000 0 readdir _ _ Hw)
    as [_ [_ [Hsp _]]].
  exact Hsp.
Defined.

(** C8 as stated fails: when the auth directory does not exist,
    [fs.readdirSync] throws outside the per-file [try]; no matching file ever
    appears, yet the error reaches the per-account [catch], which records the
    code [UNKNOWN], not [WRITE_FAILED]. *)
Lemma waitForAuthFile_missing_dir_not_write_failed :
  let m := "ENOENT: no such file or directory, scandir '/home/u/.cli-proxy-api'" in
  let w := mkWorld (Ok tt) (Ok tt) (Ok tt) (Ok tt) (Ok sample_url) (Ok tt)
             (Ok (mkFlow "http://localhost:1455/auth/callback?code=c" false false None))
             (Ok false) (fun _ => Ok (mkStatus StSuccess None)) (Throw m) "t0" "t1" in
  waitForAuthFileByEmail "/home/u/.cli-proxy-api" "a@example.com" 120000 0
    (fun _ => Throw m) [0%Z] (Throw m) /\
  exists r,
    iteration sample_state 120000 "free" w (mkAccount "a@example.com" "pw" None) [] = [r] /\
    res_code r = Some UNKNOWN /\ res_code r <> Some WRITE_FAILED.
Proof.
  intros m w. split.
  - apply wait_readdir_throws; [lia|reflexivity].
  - eexists. split; [reflexivity|]. split; [reflexivity|discriminate].
Qed.

(** ** Claim C9 *)

Lemma selectorLoop_all_ok p sels :
  (forall sel, In sel sels -> exists n, selector_count p sel = Ok n) ->
  selectorLoop p sels = Ok (existsb (fun sel => match selector_count p sel with
                                                | Ok n => (0 <? n)%Z && selector_visible p sel
                                                | Throw _ => false
                                                end) sels).
Proof.
  induction sels as [|sel rest IH]; intros H; [reflexivity|]. simpl.
  destruct (H sel (or_introl eq_refl)) as [n Hn]. rewrite Hn.
  destruct ((0 <? n)%Z && selector_visible p sel); [reflexivity|].
  apply IH. intros s Hs. apply H. right. exact Hs.
Qed.

Lemma selector_shown_iff p sel :
  selector_shown p sel <->
  match selector_count p sel with
  | Ok n => (0 <? n)%Z && selector_visible p sel
  | Throw _ => false
  end = true.
Proof.
  unfold selector_shown. destruct (selector_count p sel) as [n|m]; split.
  - intros [n' [[= <-] [Hn Hv]]]. rewrite Hv, andb_true_r. apply Z.ltb_lt. exact Hn.
  - intros H. apply andb_true_iff in H. destruct H as [Hn Hv].
    exists n. split; [reflexivity|]. split; [apply Z.ltb_lt; exact Hn|exact Hv].
  - intros [n' [Hc _]]. discriminate.
  - discriminate.
Qed.

Lemma selectorLoop_throw p sels m :
  selectorLoop p sels = Throw m -> exists sel, In sel sels /\ selector_count p sel = Throw m.
Proof.
  induction sels as [|sel rest IH]; simpl; [discriminate|].
  destruct (selector_count p sel) as [n|m'] eqn:Hc.
  - destruct ((0 <? n)%Z && selector_visible p sel); [discriminate|].
    intros H. destruct (IH H) as [s [Hs Hsc]]. exists s. tauto.
  - intros [= ->]. exists sel. tauto.
Qed.

Lemma selectorLoop_hidden p pre rest :
  (forall s, In s pre -> exists n, selector_count p s = Ok n /\ ~ selector_shown p s) ->
  selectorLoop p (pre ++ rest) = selectorLoop p rest.
Proof.
  induction pre as [|s pre IH]; intros H; [reflexivity|]. simpl.
  destruct (H s (or_introl eq_refl)) as [n [Hn Hsh]]. rewrite Hn.
  destruct ((0 <? n)%Z && selector_visible p s) eqn:E.
  - exfalso. apply Hsh. apply selector_shown_iff. rewrite Hn. exact E.
  - apply IH. intros s' Hs'. apply H. right. exact Hs'.
Qed.

Lemma onCodexConsentPage_iff canonicalize p :
  onCodexConsentPage canonicalize p = true <-> consent_showing canonicalize p.
Proof.
  unfold onCodexConsentPage, consent_showing, frameLooksLikeConsent.
  apply existsb_exists.
Qed.

(** C9 (as amended): over UTF-16 code units, for every page, flow
    configuration and case mappings of the engine: [detectChallenge] returns
    [false] when the first 12000 code units of some frame's body text match
    the consent pattern case-insensitively (an unreadable frame counts as
    empty).  Otherwise, when every configured selector's [count()] and the
    page content can be read, it returns a boolean that is [true] exactly
    when some configured selector is present and visible or the lower-cased
    page content contains a lower-cased configured text pattern other than
    the fixed overly broad ones (["verification"], ["验证"]); a present and
    visible selector gives [true] whatever the page content.  A rejection of
    a selector's [count()], reached before any visible selector, or of
    [page.content()], reached when no selector is visible, is thrown out of
    [detectChallenge], and these are the only errors it throws. *)
Theorem detectChallenge_spec lowerCase canonicalize p cfg :
  (consent_showing canonicalize p ->
     detectChallenge lowerCase canonicalize p cfg = Ok false) /\
  (~ consent_showing canonicalize p ->
     (forall sel, In sel (challengeSelectors cfg) -> exists n, selector_count p sel = Ok n) ->
     (exists sel, In sel (challengeSelectors cfg) /\ selector_shown p sel) ->
     detectChallenge lowerCase canonicalize p cfg = Ok true) /\
  (~ consent_showing canonicalize p ->
     (forall sel, In sel (challengeSelectors cfg) -> exists n, selector_count p sel = Ok n) ->
     forall html, page_content p = Ok html ->
     exists b, detectChallenge lowerCase canonicalize p cfg = Ok b /\
       (b = true <->
        (exists sel, In sel (challengeSelectors cfg) /\ selector_shown p sel) \/
        (exists t, In t (challengeTextPatterns cfg) /\
                   lowerCase t <> broad_en /\ lowerCase t <> broad_zh /\
                   uincludes (lowerCase html) (lowerCase t) = true))) /\
  (~ consent_showing canonicalize p ->
     forall pre sel post m, challengeSelectors cfg = (pre ++ sel :: post)%list ->
     (forall s, In s pre -> exists n, selector_count p s = Ok n /\ ~ selector_shown p s) ->
     selector_count p sel = Throw m ->
     detectChallenge lowerCase canonicalize p cfg = Throw m) /\
  (~ consent_showing canonicalize p ->
     (forall s, In s (challengeSelectors cfg) ->
        exists n, selector_count p s = Ok n /\ ~ selector_shown p s) ->
     forall m, page_content p = Throw m ->
     detectChallenge lowerCase canonicalize p cfg = Throw m) /\
  (forall m, detectChallenge lowerCase canonicalize p cfg = Throw m ->
     ~ consent_showing canonicalize p /\
     ((exists sel, In sel (challengeSelectors cfg) /\ selector_count p sel = Throw m) \/
      page_content p = Throw m)).
Proof.
  unfold detectChallenge.
  split; [|split; [|split; [|split; [|split]]]].
  - intros Hc. apply onCodexConsentPage_iff in Hc. rewrite Hc. reflexivity.
  - intros Hc Hok [sel [Hin Hsh]].
    destruct (onCodexConsentPage canonicalize p) eqn:E.
    { exfalso. apply Hc, onCodexConsentPage_iff, E. }
    rewrite (selectorLoop_all_ok _ _ Hok).
    replace (existsb _ _) with true; [reflexivity|].
    symmetry. apply existsb_exists. exists sel. split; [exact Hin|].
    apply selector_shown_iff. exact Hsh.
  - intros Hc Hok html Hh.
    destruct (onCodexConsentPage canonicalize p) eqn:E.
    { exfalso. apply Hc, onCodexConsentPage_iff, E. }
    rewrite (selectorLoop_all_ok _ _ Hok).
    destruct (existsb _ (challengeSelectors cfg)) eqn:Es.
    + exists true. split; [reflexivity|]. split; [|reflexivity]. intros _. left.
      apply existsb_exists in Es. destruct Es as [sel [Hin Hs]].
      exists sel. split; [exact Hin|]. apply selector_shown_iff. exact Hs.
    + rewrite Hh. eexists. split; [reflexivity|]. rewrite existsb_exists. split.
      * intros [t [Ht Hi]]. right.
        apply filter_In in Ht. destruct Ht as [Ht Hb].
        apply in_map_iff in Ht. destruct Ht as [t0 [<- Ht0]].
        unfold overlyBroad, ustr_eqb in Hb.
        destruct (list_eq_dec Z.eq_dec (lowerCase t0) broad_en); [discriminate|].
        destruct (list_eq_dec Z.eq_dec (lowerCase t0) broad_zh); [discriminate|].
        exists t0. tauto.
      * intros [[sel [Hin Hsh]]|[t [Ht [Hn1 [Hn2 Hi]]]]].
        { exfalso. assert (X : existsb (fun sel => match selector_count p sel with
                                                   | Ok n => (0 <? n)%Z && selector_visible p sel
                                                   | Throw _ => false
                                                   end) (challengeSelectors cfg) = true).
          { apply existsb_exists. exists sel. split; [exact Hin|].
            apply selector_shown_iff. exact Hsh. }
          congruence. }
        exists (lowerCase t). split; [|exact Hi].
        apply filter_In. split; [apply in_map; exact Ht|].
        unfold overlyBroad, ustr_eqb.
        destruct (list_eq_dec Z.eq_dec (lowerCase t) broad_en); [contradiction|].
        destruct (list_eq_dec Z.eq_dec (lowerCase t) broad_zh); [contradiction|].
        reflexivity.
  - intros Hc pre sel post m Hcfg Hpre Hm.
    destruct (onCodexConsentPage canonicalize p) eqn:E.
    { exfalso. apply Hc, onCodexConsentPage_iff, E. }
    rewrite Hcfg, (selectorLoop_hidden _ _ _ Hpre). simpl. rewrite Hm. reflexivity.
  - intros Hc Hall m Hm.
    destruct (onCodexConsentPage canonicalize p) eqn:E.
    { exfalso. apply Hc, onCodexConsentPage_iff, E. }
    pose proof (selectorLoop_hidden p (challengeSelectors cfg) [] Hall) as Hl.
    rewrite app_nil_r in Hl. rewrite Hl. simpl. rewrite Hm. reflexivity.
  - intros m.
    destruct (onCodexConsentPage canonicalize p) eqn:E; [discriminate|].
    intros H. split.
    { intros Hc. apply onCodexConsentPage_iff in Hc. congruence. }
    destruct (selectorLoop p (challengeSelectors cfg)) as [[|]|m'] eqn:Es.
    + discriminate.
    + right. destruct (page_content p); [discriminate|]. congruence.
    + left. injection H as <-. apply selectorLoop_throw. exact Es.
Qed.

Lemma detectChallenge_spec_witness :
  let otp := units "input[name='otp']" in
  let p := mkPage [units "Welcome back"] (fun _ => Ok 0%Z) (fun _ => false)
             (Ok (units "<p>Security Check required</p>")) in
  let cfg := mkFlowConfig [otp] [units "Security check"; units "Verification"] in
  ~ consent_showing ascii_canonicalize p /\
  exists b, detectChallenge ascii_lowerCase ascii_canonicalize p cfg = Ok b /\
    (b = true <->
     (exists sel, In sel (challengeSelectors cfg) /\ selector_shown p sel) \/
     (exists t, In t (challengeTextPatterns cfg) /\
                ascii_lowerCase t <> broad_en /\ ascii_lowerCase t <> broad_zh /\
                uincludes (ascii_lowerCase (units "<p>Security Check required</p>"))
                  (ascii_lowerCase t) = true)).
Proof.
  intros otp p cfg.
  assert (Hc : ~ consent_showing ascii_canonicalize p).
  { intros [s [[<-|[]] Hs]]. vm_compute in Hs. discriminate. }
  split; [exact Hc|].
  destruct (detectChallenge_spec ascii_lowerCase ascii_canonicalize p cfg)
    as [_ [_ [H _]]].
  apply (H Hc).
  - intros sel _. exists 0%Z. reflexivity.
  - reflexivity.
Defined.

(** C9 as stated fails: a consent frame whose text ["to Codex"] only comes
    after 12000 code units is not recognised, and a visible challenge
    selector then makes [detectChallenge] return [true]. *)
Lemma detectChallenge_long_consent_frame :
  let body := (repeat 97%Z 12000 ++ units "Sign in to Codex")%list in
  let otp := units "input[name='otp']" in
  let p := mkPage [body] (fun sel => if ustr_eqb sel otp then Ok 1%Z else Ok 0%Z)
             (fun sel => ustr_eqb sel otp) (Ok (units "<html></html>")) in
  consent_re ascii_canonicalize body = true /\
  detectChallenge ascii_lowerCase ascii_canonicalize p (mkFlowConfig [otp] []) = Ok true.
Proof. split; vm_compute; reflexivity. Qed.

(* ========================================================================= *)
(** * Further properties *)

Lemma str_app_nil s : s ++ "" = s.
Proof. induction s as [|c s IH]; simpl; [reflexivity|]. rewrite IH. reflexivity. Qed.

Lemma str_app_assoc a b c : (a ++ b) ++ c = a ++ (b ++ c).
Proof. induction a as [|x a IH]; simpl; [reflexivity|]. rewrite IH. reflexivity. Qed.

Lemma str_length_app a b : String.length (a ++ b) = (String.length a + String.length b)%nat.
Proof. induction a as [|x a IH]; simpl; [reflexivity|]. rewrite IH. reflexivity. Qed.

Lemma startsWith_app s p : startsWith (p ++ s) p = true.
Proof.
  induction p as [|c p IH]; simpl; [destruct s; reflexivity|].
  rewrite Ascii.eqb_refl. exact IH.
Qed.

Lemma startsWith_inv s p : startsWith s p = true -> exists t, s = p ++ t.
Proof.
  revert s. induction p as [|c p IH]; intros s H; [exists s; reflexivity|].
  destruct s as [|d s]; [discriminate|]. simpl in H.
  apply andb_true_iff in H. destruct H as [H1 H2]. apply Ascii.eqb_eq in H1. subst d.
  destruct (IH s H2) as [t ->]. exists t. reflexivity.
Qed.

(** ** [trim] *)

Lemma trim_start_split l :
  exists w, l = (w ++ trim_start l)%list /\ Forall (fun c => is_js_space c = true) w.
Proof.
  induction l as [|c l IH]; simpl; [exists []; split; [reflexivity|constructor]|].
  destruct (is_js_space c) eqn:E.
  - destruct IH as [w [Hw Hf]]. exists (c :: w). split; [simpl; f_equal; exact Hw|constructor; assumption].
  - exists []. split; [reflexivity|constructor].
Qed.

Lemma trim_start_head l :
  match trim_start l with [] => True | c :: _ => is_js_space c = false end.
Proof.
  induction l as [|c l IH]; simpl; [exact I|].
  destruct (is_js_space c) eqn:E; [exact IH|exact E].
Qed.

Lemma trim_start_fix l :
  match l with [] => True | c :: _ => is_js_space c = false end -> trim_start l = l.
Proof. destruct l as [|c l]; simpl; [reflexivity|]. intros ->. reflexivity. Qed.

Lemma trim_idem s : trim (trim s) = trim s.
Proof.
  unfold trim. rewrite list_ascii_of_string_of_list_ascii. f_equal.
  set (u := trim_start (list_ascii_of_string s)).
  set (v := trim_start (rev u)).
  assert (Hv : trim_start (rev v) = rev v).
  { apply trim_start_fix.
    destruct (trim_start_split (rev u)) as [w [Hw _]]. fold v in Hw.
    pose proof (trim_start_head (list_ascii_of_string s)) as Hh. fold u in Hh.
    assert (Hu : u = (rev v ++ rev w)%list).
    { rewrite <- rev_app_distr, <- Hw, rev_involutive. reflexivity. }
    destruct (rev v) as [|c r]; [exact I|]. rewrite Hu in Hh. exact Hh. }
  rewrite Hv, rev_involutive, trim_start_fix; [reflexivity|].
  apply trim_start_head.
Qed.

(** ** [split] and [join] *)

Lemma split_go_skip sep x t cur :
  split_go sep (String.length x) (x ++ t) cur = split_go sep 0 t cur.
Proof. induction x as [|c x IH]; simpl; [reflexivity|exact IH]. Qed.

Lemma split_go_cons sep k s cur : exists x l, split_go sep k s cur = x :: l.
Proof.
  revert k cur. induction s as [|c s IH]; intros k cur; simpl; [eauto|].
  destruct k; [|apply IH].
  match goal with |- context [if ?b then _ else _] => destruct b end; [eauto|apply IH].
Qed.

Lemma split_go_step sep c s cur :
  split_go sep 0 (String c s) cur =
  if startsWith (String c s) sep
  then cur :: split_go sep (String.length sep - 1)%nat s ""
  else split_go sep 0 s (cur ++ String c "").
Proof. reflexivity. Qed.

Lemma split_go_match sep c s cur t :
  sep <> "" -> String c s = sep ++ t ->
  split_go sep 0 (String c s) cur = cur :: split_go sep 0 t "".
Proof.
  intros Hsep Ht. rewrite split_go_step, Ht, startsWith_app.
  destruct sep as [|c0 sep']; [congruence|]. simpl in Ht. injection Ht as <- ->.
  replace (String.length (String c sep') - 1)%nat with (String.length sep') by (simpl; lia).
  rewrite split_go_skip. reflexivity.
Qed.

Lemma split_concat sep s cur :
  sep <> "" -> String.concat sep (split_go sep 0 s cur) = cur ++ s.
Proof.
  intro Hsep. remember (String.length s) as n eqn:Hn. revert s cur Hn.
  induction n as [n IH] using lt_wf_ind. intros [|c s'] cur Hn.
  - simpl. rewrite str_app_nil. reflexivity.
  - destruct (startsWith (String c s') sep) eqn:E.
    + destruct (startsWith_inv _ _ E) as [t Ht].
      rewrite (split_go_match sep c s' cur t Hsep Ht).
      destruct (split_go_cons sep 0 t "") as [x [l Hxl]].
      change (String.concat sep (cur :: split_go sep 0 t ""))
        with (match split_go sep 0 t "" with
              | [] => cur
              | _ :: _ => cur ++ sep ++ String.concat sep (split_go sep 0 t "")
              end).
      rewrite Hxl, <- Hxl.
      rewrite (IH (String.length t)); [|rewrite Hn, Ht, str_length_app; destruct sep; [congruence|simpl; lia]|reflexivity].
      simpl. rewrite Ht. reflexivity.
    + rewrite split_go_step, E.
      rewrite (IH (String.length s')); [|simpl in Hn; lia|reflexivity].
      rewrite str_app_assoc. reflexivity.
Qed.

Lemma split_go_first sep s :
  sep <> "" -> forall cur x y l,
  split_go sep 0 s cur = x :: y :: l ->
  exists p t, x = cur ++ p /\ s = p ++ sep ++ t /\ split_go sep 0 t "" = y :: l /\
    (forall pre post, s = pre ++ sep ++ post ->
       (String.length p <= String.length pre)%nat).
Proof.
  intro Hsep. induction s as [|c s IH]; intros cur x y l H; [discriminate|].
  destruct (startsWith (String c s) sep) eqn:E.
  - destruct (startsWith_inv _ _ E) as [t Ht].
    rewrite (split_go_match sep c s cur t Hsep Ht) in H. injection H as <- Ht'.
    exists "", t. split; [symmetry; apply str_app_nil|].
    split; [exact Ht|]. split; [exact Ht'|]. intros. simpl. lia.
  - rewrite split_go_step, E in H.
    destruct (IH _ _ _ _ H) as [p [t [Hx [Hs [Hyl Hmin]]]]].
    exists (String c p), t. split; [rewrite Hx, str_app_assoc; reflexivity|].
    split; [rewrite Hs; reflexivity|]. split; [exact Hyl|].
    intros [|c' pre] post Hp.
    + simpl in Hp. rewrite Hp, startsWith_app in E. discriminate.
    + simpl in Hp. injection Hp as _ Hp. simpl. apply le_n_S. eapply Hmin. exact Hp.
Qed.


Lemma list_strong_ind {A} (P : list A -> Prop) :
  (forall l, (forall l', (length l' < length l)%nat -> P l') -> P l) -> forall l, P l.
Proof.
  intros H. assert (G : forall n l, (length l <= n)%nat -> P l).
  { induction n as [|n IH]; intros l Hl; apply H; intros l' Hl'; [lia|apply IH; lia]. }
  intro l. apply (G (length l)). lia.
Qed.

Lemma obj_set_find k v m k' :
  find_key k' (obj_set k v m) =
  if String.eqb k "__proto__" then find_key k' m
  else if String.eqb k' k then Some v else find_key k' m.
Proof. unfold obj_set. destruct (String.eqb k "__proto__"); [reflexivity|apply map_set_find]. Qed.

Lemma parse_tokens_values ts :
  forall opts fl,
  (forall k v, find_key k opts = Some v -> v <> "" /\ startsWith v "--" = false) ->
  forall k v, find_key k (fst (parse_tokens ts opts fl)) = Some v ->
  v <> "" /\ startsWith v "--" = false.
Proof.
  induction ts as [[|tok rest] IH] using list_strong_ind; intros opts fl Hopts; simpl;
    [exact Hopts|].
  destruct (negb (startsWith tok "--")); [apply IH; simpl; [lia|exact Hopts]|].
  destruct rest as [|next rest'].
  - apply IH; [simpl; lia|exact Hopts].
  - destruct (String.eqb next "" || startsWith next "--") eqn:E.
    + apply IH; [simpl; lia|exact Hopts].
    + apply IH; [simpl; lia|]. intros k v. rewrite obj_set_find.
      destruct (String.eqb (slice2 tok) "__proto__"); [apply Hopts|].
      destruct (String.eqb k (slice2 tok)); [|apply Hopts].
      intros [= <-]. apply orb_false_iff in E. destruct E as [E1 E2].
      split; [apply String.eqb_neq; exact E1|exact E2].
Qed.

Lemma option_get_values argv k v :
  option_get (parseArgs argv) k = Some v -> v <> "" /\ startsWith v "--" = false.
Proof.
  destruct argv as [|cmd rest]; simpl; [discriminate|].
  pose proof (parse_tokens_values rest [] [] ltac:(discriminate) k v) as H.
  destruct (parse_tokens rest [] []) as [o f]. exact H.
Qed.

Lemma set_add_in k s : In k (set_add k s).
Proof.
  unfold set_add. destruct (existsb (String.eqb k) s) eqn:E.
  - apply existsb_exists in E. destruct E as [x [Hx Hk]].
    apply String.eqb_eq in Hk. subst. exact Hx.
  - apply in_or_app. right. left. reflexivity.
Qed.

Lemma set_add_mono k s x : In x s -> In x (set_add k s).
Proof.
  unfold set_add. destruct (existsb (String.eqb k) s); [auto|].
  intro H. apply in_or_app. left. exact H.
Qed.

Lemma parse_tokens_flags_mono ts :
  forall opts fl x, In x fl -> In x (snd (parse_tokens ts opts fl)).
Proof.
  induction ts as [[|tok rest] IH] using list_strong_ind; intros opts fl x Hx; simpl;
    [exact Hx|].
  destruct (negb (startsWith tok "--")); [apply IH; simpl; [lia|exact Hx]|].
  destruct rest as [|next rest'].
  - apply IH; [simpl; lia|apply set_add_mono, Hx].
  - destruct (String.eqb next "" || startsWith next "--").
    + apply IH; [simpl; lia|apply set_add_mono, Hx].
    + apply IH; [simpl; lia|exact Hx].
Qed.



Lemma slice2_opt k : slice2 ("--" ++ k) = k.
Proof. reflexivity. Qed.

Lemma parse_tokens_trailing key ts :
  forall opts fl, In key (snd (parse_tokens (ts ++ ["--" ++ key]) opts fl)).
Proof.
  induction ts as [[|tok rest] IH] using list_strong_ind; intros opts fl; simpl.
  - replace (startsWith key "") with true by (destruct key; reflexivity).
    simpl. apply set_add_in.
  - destruct (negb (startsWith tok "--")); [apply IH; simpl; lia|].
    destruct rest as [|next rest'].
    + simpl. replace (startsWith key "") with true by (destruct key; reflexivity).
      simpl. apply set_add_in.
    + simpl. destruct (String.eqb next "" || startsWith next "--").
      * apply (IH (next :: rest')); simpl; lia.
      * apply IH; simpl; lia.
Qed.

Lemma find_key_app {V} k (l1 l2 : list (string * V)) :
  find_key k (l1 ++ l2) = match find_key k l1 with Some v => Some v | None => find_key k l2 end.
Proof.
  induction l1 as [|[k0 v0] l1 IH]; simpl; [reflexivity|].
  destruct (String.eqb k k0); [reflexivity|exact IH].
Qed.

Lemma parse_tokens_pairs k ps :
  k <> "__proto__" ->
  Forall (fun kv => snd kv <> "" /\ startsWith (snd kv) "--" = false) ps ->
  forall opts fl,
  parse_tokens (option_pairs ps) opts fl =
    (fst (parse_tokens (option_pairs ps) opts fl), fl) /\
  find_key k (fst (parse_tokens (option_pairs ps) opts fl)) =
    match find_key k (rev ps) with Some v => Some v | None => find_key k opts end.
Proof.
  intros Hk. induction 1 as [|[k0 v0] ps [Hv1 Hv2] _ IH]; intros opts fl; simpl in *;
    [split; reflexivity|].
  replace (startsWith k0 "") with true by (destruct k0; reflexivity).
  replace (String.eqb v0 "" || startsWith v0 "--") with false
    by (apply String.eqb_neq in Hv1; rewrite Hv1, Hv2; reflexivity).
  simpl negb. cbv iota. change (slice2 (String "-" (String "-" k0))) with k0.
  destruct (IH (obj_set k0 v0 opts) fl) as [H1 H2]. split; [exact H1|].
  rewrite H2, find_key_app, obj_set_find. simpl.
  destruct (find_key k (rev ps)); [reflexivity|].
  destruct (String.eqb_spec k0 "__proto__") as [->|Hp].
  - apply String.eqb_neq in Hk. rewrite Hk. reflexivity.
  - destruct (String.eqb k k0); reflexivity.
Qed.

(** X1: for an option name that Object.prototype does not define,
    [requireOption] on any parsed command line returns the value [parseArgs]
    recorded for it and throws [Missing required option --key] when there
    is none; a recorded value is never empty and never starts with [--]. *)
Theorem requireOption_parseArgs argv key (Hown : own_name key = true) :
  requireOption (parseArgs argv) key =
    match option_get (parseArgs argv) key with
    | Some v => Ok v
    | None => Throw ("Missing required option --" ++ key)
    end /\
  (forall v, option_get (parseArgs argv) key = Some v ->
     v <> "" /\ startsWith v "--" = false).
Proof.
  split; [|apply option_get_values].
  unfold requireOption. destruct (option_get (parseArgs argv) key) as [v|] eqn:E; [|reflexivity].
  destruct (option_get_values _ _ _ E) as [Hv _]. apply String.eqb_neq in Hv. rewrite Hv. reflexivity.
Qed.

Lemma requireOption_parseArgs_witness :
  own_name "input" = true /\
  requireOption (parseArgs ["auth"; "--input"; "a.json"; "--dry-run"]) "input" = Ok "a.json" /\
  requireOption (parseArgs ["auth"; "--input"; "--dry-run"]) "input" =
    Throw "Missing required option --input".
Proof.
  assert (Hown : own_name "input" = true) by reflexivity.
  split; [exact Hown|]. split.
  - rewrite (proj1 (requireOption_parseArgs ["auth"; "--input"; "a.json"; "--dry-run"] "input" Hown)).
    reflexivity.
  - rewrite (proj1 (requireOption_parseArgs ["auth"; "--input"; "--dry-run"] "input" Hown)).
    reflexivity.
Defined.

(** X2: a command followed by [--key value] pairs whose values are
    non-empty and do not start with [--] parses to that command, no flags,
    and for every name Object.prototype does not define the value of its
    last occurrence. *)
Theorem parseArgs_option_pairs cmd ps k
  (Hvals : Forall (fun kv => snd kv <> "" /\ startsWith (snd kv) "--" = false) ps)
  (Hk : own_name k = true) :
  command (parseArgs (cmd :: option_pairs ps)) = cmd /\
  flags (parseArgs (cmd :: option_pairs ps)) = [] /\
  option_get (parseArgs (cmd :: option_pairs ps)) k = find_key k (rev ps).
Proof.
  assert (Hp : k <> "__proto__").
  { intros ->. discriminate Hk. }
  destruct (parse_tokens_pairs k ps Hp Hvals [] []) as [H1 H2].
  unfold option_get, parseArgs. rewrite H1. simpl.
  split; [reflexivity|]. split; [reflexivity|].
  rewrite H2. destruct (find_key k (rev ps)); reflexivity.
Qed.

Lemma parseArgs_option_pairs_witness :
  let ps := [("input", "a.json"); ("plan", "plus"); ("input", "b.json")] in
  Forall (fun kv => snd kv <> "" /\ startsWith (snd kv) "--" = false) ps /\
  own_name "input" = true /\
  option_get (parseArgs ("auth" :: option_pairs ps)) "input" = Some "b.json".
Proof.
  intro ps.
  assert (Hvals : Forall (fun kv => snd kv <> "" /\ startsWith (snd kv) "--" = false) ps).
  { repeat constructor; discriminate. }
  assert (Hk : own_name "input" = true) by reflexivity.
  split; [exact Hvals|]. split; [exact Hk|].
  rewrite (proj2 (proj2 (parseArgs_option_pairs "auth" ps "input" Hvals Hk))).
  reflexivity.
Defined.

(** X3: a last token [--key] with nothing after it is recorded as a flag,
    so [getBoolOption] returns true for [key] whatever the earlier tokens
    and the default are. *)
Theorem getBoolOption_trailing_flag cmd rest key d :
  getBoolOption (parseArgs (cmd :: (rest ++ ["--" ++ key]))) key d = true.
Proof.
  unfold getBoolOption, parseArgs.
  pose proof (parse_tokens_trailing key rest [] []) as H.
  destruct (parse_tokens (rest ++ ["--" ++ key]) [] []) as [o f]. simpl in *.
  replace (existsb (String.eqb key) f) with true; [reflexivity|].
  symmetry. apply existsb_exists. exists key. split; [exact H|apply String.eqb_refl].
Qed.

(** X4: a [--management-key] value given on the command line is always
    used (it is never empty); without it [CPA_MANAGEMENT_KEY] is used, and
    when that is unset or empty the command throws the missing-key error. *)
Theorem pickManagementKey_parseArgs argv env :
  pickManagementKey (option_get (parseArgs argv) "management-key") env =
  match option_get (parseArgs argv) "management-key", env with
  | Some v, _ => Ok v
  | None, Some e =>
      if String.eqb e "" then
        Throw "Management key is required. Pass --management-key (plaintext) or set CPA_MANAGEMENT_KEY."
      else Ok e
  | None, None =>
      Throw "Management key is required. Pass --management-key (plaintext) or set CPA_MANAGEMENT_KEY."
  end.
Proof.
  unfold pickManagementKey.
  destruct (option_get (parseArgs argv) "management-key") as [v|] eqn:E.
  - destruct (option_get_values _ _ _ E) as [Hv _]. apply String.eqb_neq in Hv. rewrite Hv.
    destruct env; reflexivity.
  - destruct env; reflexivity.
Qed.


(** ** parseMarkdownAccounts *)

Lemma find_app {A} (f : A -> bool) l1 l2 :
  find f (l1 ++ l2) = match find f l1 with Some x => Some x | None => find f l2 end.
Proof. induction l1 as [|x l1 IH]; simpl; [reflexivity|]. destruct (f x); [reflexivity|exact IH]. Qed.

Lemma map_set_length {V} k (v : V) m : (length (map_set k v m) <= S (length m))%nat.
Proof.
  induction m as [|[k0 v0] m IH]; simpl; [lia|].
  destruct (String.eqb k k0); simpl; lia.
Qed.

Lemma email_re_nonempty s : email_re s = true -> s <> "".
Proof. intros H ->. discriminate H. Qed.

Lemma md_classify_valid dp line a :
  md_classify dp line = LineAccount a -> md_valid dp a.
Proof.
  unfold md_classify. cbv zeta.
  destruct (String.eqb (trim line) ""); [discriminate|].
  destruct (length (str_split "----" (trim line)) <? 2)%nat; [discriminate|].
  destruct (email_re (trim (nth 0 (str_split "----" (trim line)) ""))) eqn:He; [|discriminate].
  destruct (String.eqb (String.concat "----" (tl (str_split "----" (trim line)))) "") eqn:Hp;
    [discriminate|].
  intros [= <-]. unfold md_valid. simpl.
  split; [exact He|]. split; [apply trim_idem|]. split; [apply String.eqb_neq, Hp|reflexivity].
Qed.

Lemma md_classify_blank dp line :
  String.eqb (trim line) "" = match md_classify dp line with LineBlank => true | _ => false end.
Proof.
  unfold md_classify. cbv zeta.
  destruct (String.eqb (trim line) ""); [reflexivity|].
  destruct (length (str_split "----" (trim line)) <? 2)%nat; [reflexivity|].
  destruct (negb (email_re (trim (nth 0 (str_split "----" (trim line)) "")))); [reflexivity|].
  destruct (String.eqb (String.concat "----" (tl (str_split "----" (trim line)))) ""); reflexivity.
Qed.

Lemma md_lines_byEmail dp lines :
  forall st idx,
  Forall (fun kv => fst kv = toLowerCase (acc_email (snd kv)) /\ md_valid dp (snd kv))
    (md_byEmail st) ->
  NoDup (map fst (md_byEmail st)) ->
  Forall (fun kv => fst kv = toLowerCase (acc_email (snd kv)) /\ md_valid dp (snd kv))
    (md_byEmail (md_lines dp st idx lines)) /\
  NoDup (map fst (md_byEmail (md_lines dp st idx lines))).
Proof.
  induction lines as [|l ls IH]; intros st idx Hf Hnd; simpl; [tauto|].
  apply IH; unfold md_line; destruct (md_classify dp l) as [|c m|a] eqn:E; simpl;
    try assumption.
  - apply Forall_forall. intros kv Hin.
    destruct (map_set_in _ _ _ _ Hin) as [->|Hin'].
    + split; [reflexivity|]. eapply md_classify_valid. exact E.
    + rewrite Forall_forall in Hf. apply Hf, Hin'.
  - apply map_set_nodup, Hnd.
Qed.

Lemma find_key_by_email m k :
  Forall (fun kv => fst kv = toLowerCase (acc_email (snd kv))) m ->
  find_key k m = find (fun a => String.eqb (toLowerCase (acc_email a)) k) (map snd m).
Proof.
  induction 1 as [|[k0 a] m Hk _ IH]; simpl in *; [reflexivity|].
  rewrite <- Hk, String.eqb_sym. destruct (String.eqb k0 k); [reflexivity|exact IH].
Qed.

Lemma md_lines_find dp lines k :
  forall st idx,
  find_key k (md_byEmail (md_lines dp st idx lines)) =
  match find (fun a => String.eqb (toLowerCase (acc_email a)) k)
             (rev (md_accepted dp lines)) with
  | Some a => Some a
  | None => find_key k (md_byEmail st)
  end.
Proof.
  induction lines as [|l ls IH]; intros st idx; simpl; [reflexivity|].
  rewrite IH. unfold md_accepted. simpl. fold (md_accepted dp ls).
  rewrite rev_app_distr, find_app.
  destruct (find _ (rev (md_accepted dp ls))); [reflexivity|].
  unfold md_line. destruct (md_classify dp l) as [|c m|a]; simpl; try reflexivity.
  rewrite map_set_find, String.eqb_sym. destruct (String.eqb _ k); reflexivity.
Qed.

Lemma md_lines_counts dp lines :
  forall st idx,
  let st' := md_lines dp st idx lines in
  let ne := length (filter (fun l => match md_classify dp l with LineError _ _ => true | _ => false end) lines) in
  let na := length (md_accepted dp lines) in
  md_invalid st' = (md_invalid st + ne)%nat /\
  length (md_errors st') = (length (md_errors st) + ne)%nat /\
  (length (md_byEmail st') <= length (md_byEmail st) + na)%nat /\
  (forall e, In e (md_errors st') ->
     In e (md_errors st) \/ (idx < err_line e <= idx + length lines)%nat).
Proof.
  induction lines as [|l ls IH]; intros st idx; simpl.
  - repeat split; try lia. tauto.
  - destruct (IH (md_line dp st idx l) (S idx)) as [H1 [H2 [H3 H4]]].
    unfold md_accepted in *. simpl.
    unfold md_line in *. destruct (md_classify dp l) as [|c m|a]; simpl in *.
    + repeat split; try lia. intros e He. destruct (H4 e He) as [H|H]; [tauto|right; lia].
    + rewrite length_app in H2. simpl in H2.
      repeat split; try lia. intros e He. destruct (H4 e He) as [H|H]; [|right; lia].
      apply in_app_or in H. destruct H as [H|[<-|[]]]; [tauto|right; simpl; lia].
    + pose proof (map_set_length (toLowerCase (acc_email a)) a (md_byEmail st)) as Hms.
      repeat split; try lia. intros e He. destruct (H4 e He) as [H|H]; [tauto|right; lia].
Qed.

Lemma md_nonblank dp lines :
  length (filter (fun l => negb (String.eqb (trim l) "")) lines) =
  (length (filter (fun l => match md_classify dp l with LineError _ _ => true | _ => false end) lines)
   + length (md_accepted dp lines))%nat.
Proof.
  induction lines as [|l ls IH]; simpl; [reflexivity|].
  unfold md_accepted in *. simpl. rewrite length_app.
  rewrite (md_classify_blank dp l). destruct (md_classify dp l); simpl; lia.
Qed.

Lemma md_accounts_valid content dp now :
  let accts := fst (parseMarkdownAccounts content dp now) in
  Forall (md_valid dp) accts /\
  NoDup (map (fun a => toLowerCase (acc_email a)) accts).
Proof.
  simpl.
  destruct (md_lines_byEmail dp (split_lines content) (mkMd [] [] 0) 0
              ltac:(constructor) ltac:(constructor)) as [Hf Hnd].
  split.
  - apply Forall_map. eapply Forall_impl; [|exact Hf]. simpl. tauto.
  - replace (map (fun a => toLowerCase (acc_email a)) (map snd _))
      with (map fst (md_byEmail (md_lines dp (mkMd [] [] 0) 0 (split_lines content)))).
    + exact Hnd.
    + rewrite map_map. apply map_ext_in. intros [k a] Hin.
      rewrite Forall_forall in Hf. apply (Hf _ Hin).
Qed.

(** X5: every account [parseMarkdownAccounts] returns has an email that
    passes the email pattern and is trimmed, a non-empty password and the
    default plan, and no two returned accounts share a lower-cased email. *)
Theorem parseMarkdownAccounts_accounts content dp now :
  let accts := fst (parseMarkdownAccounts content dp now) in
  Forall (md_valid dp) accts /\
  NoDup (map (fun a => toLowerCase (acc_email a)) accts).
Proof. exact (md_accounts_valid content dp now). Qed.

(** X6: for each lower-cased email the returned account is the one of the
    last accepted line with that email. *)
Theorem parseMarkdownAccounts_last_wins content dp now k :
  find (fun a => String.eqb (toLowerCase (acc_email a)) k)
       (fst (parseMarkdownAccounts content dp now)) =
  find (fun a => String.eqb (toLowerCase (acc_email a)) k)
       (rev (md_accepted dp (split_lines content))).
Proof.
  simpl.
  destruct (md_lines_byEmail dp (split_lines content) (mkMd [] [] 0) 0
              ltac:(constructor) ltac:(constructor)) as [Hf _].
  rewrite <- find_key_by_email.
  - rewrite md_lines_find. simpl. destruct (find _ _); reflexivity.
  - eapply Forall_impl; [|exact Hf]. simpl. tauto.
Qed.

(** X7: the extract report counts every line in [total_lines], every
    returned account in [valid_accounts] and every error in
    [invalid_lines]; the non-blank lines split exactly into invalid lines,
    returned accounts and [duplicate_emails], which is the number of
    accepted lines replaced by a later one and never negative; each error
    names a line number between 1 and the number of lines. *)
Theorem parseMarkdownAccounts_report content dp now :
  let lines := split_lines content in
  let accts := fst (parseMarkdownAccounts content dp now) in
  let rep := snd (parseMarkdownAccounts content dp now) in
  total_lines rep = length lines /\
  valid_accounts rep = length accts /\
  invalid_lines rep = length (errors rep) /\
  Z.of_nat (length (filter (fun l => negb (String.eqb (trim l) "")) lines)) =
    (Z.of_nat (invalid_lines rep) + Z.of_nat (valid_accounts rep) + duplicate_emails rep)%Z /\
  duplicate_emails rep =
    (Z.of_nat (length (md_accepted dp lines)) - Z.of_nat (length accts))%Z /\
  (0 <= duplicate_emails rep)%Z /\
  Forall (fun e => 1 <= err_line e <= length lines)%nat (errors rep).
Proof.
  simpl.
  destruct (md_lines_counts dp (split_lines content) (mkMd [] [] 0) 0) as [H1 [H2 [H3 H4]]].
  simpl in *. rewrite length_map. rewrite (md_nonblank dp). rewrite H1, H2 in *.
  repeat split; try lia.
  apply Forall_forall. intros e He. destruct (H4 e He) as [[]|H]. lia.
Qed.

(** X8: when a line yields an account, the trimmed line is the text before
    its first [----], then [----], then the password: the password keeps
    any later [----], and the email is the trimmed text before the first
    one. *)
Theorem md_classify_password dp line a :
  md_classify dp line = LineAccount a ->
  exists raw,
    trim line = raw ++ "----" ++ acc_password a /\
    trim raw = acc_email a /\
    (forall pre post, trim line = pre ++ "----" ++ post ->
       (String.length raw <= String.length pre)%nat).
Proof.
  unfold md_classify. cbv zeta.
  destruct (String.eqb (trim line) ""); [discriminate|].
  remember (str_split "----" (trim line)) as parts eqn:Hs.
  remember (String.concat "----" (tl parts)) as pw eqn:Hpw.
  destruct (length parts <? 2)%nat eqn:Hlen; [discriminate|].
  destruct (negb (email_re (trim (nth 0 parts "")))); [discriminate|].
  destruct (String.eqb pw ""); [discriminate|].
  intros [= <-]. cbn [acc_email acc_password].
  destruct parts as [|x [|y l]]; try discriminate Hlen.
  change (tl (x :: y :: l)) with (y :: l) in Hpw.
  change (nth 0 (x :: y :: l) "") with x.
  destruct (split_go_first "----" (trim line) ltac:(discriminate) "" x y l (eq_sym Hs))
    as [p [t [Hx [Ht [Hyl Hmin]]]]].
  change ("" ++ p) with p in Hx. subst p. exists x.
  rewrite Hpw, <- Hyl, split_concat by discriminate.
  split; [exact Ht|]. split; [reflexivity|exact Hmin].
Qed.

Lemma md_classify_password_witness :
  let line := "  alice@example.com----pa----ss  " in
  let a := mkAccount "alice@example.com" "pa----ss" (Some "free") in
  md_classify "free" line = LineAccount a /\
  exists raw, trim line = raw ++ "----" ++ acc_password a /\ trim raw = acc_email a.
Proof.
  intros line a.
  assert (H : md_classify "free" line = LineAccount a) by (vm_compute; reflexivity).
  split; [exact H|].
  destruct (md_classify_password "free" line a H) as [raw [H1 [H2 _]]].
  exists raw. split; assumption.
Defined.


(** ** loadAccountJson *)

Lemma load_row_some dp row a :
  load_row dp row = Some a ->
  exists e pw pl, acc_email a = e /\ acc_password a = pw /\ acc_plan a = Some pl /\
    e <> "" /\ email_re e = true /\ trim e = e /\ pw <> "" /\
    (pl = dp \/ (pl <> "" /\ trim pl = pl)).
Proof.
  intro H.
  assert (Hc : load_row dp row =
    let email := match prop row "email" with JStr s => trim s | _ => "" end in
    let password := match prop row "password" with JStr s => s | _ => "" end in
    let plan := match prop row "plan" with
                | JStr s => if String.eqb (trim s) "" then dp else trim s
                | _ => dp end in
    if String.eqb email "" || negb (email_re email) || String.eqb password ""
    then None else Some (mkAccount email password (Some plan))).
  { destruct row; reflexivity. }
  rewrite Hc in H; clear Hc. cbv zeta in H.
  remember (match prop row "email" with JStr s => trim s | _ => "" end) as e eqn:Ee.
  remember (match prop row "password" with JStr s => s | _ => "" end) as pw eqn:Epw.
  remember (match prop row "plan" with
            | JStr s => if String.eqb (trim s) "" then dp else trim s
            | _ => dp end) as p eqn:Ep.
  assert (Hp : p = dp \/ (p <> "" /\ trim p = p)).
  { subst p; destruct (prop row "plan"); auto. destruct (String.eqb (trim s) "") eqn:Es; auto.
    right; split; [apply String.eqb_neq, Es|apply trim_idem]. }
  assert (He : trim e = e) by (subst e; destruct (prop row "email"); try reflexivity; apply trim_idem).
  destruct (String.eqb e "") eqn:E1; [discriminate|].
  destruct (email_re e) eqn:E2; [|discriminate].
  destruct (String.eqb pw "") eqn:E3; [discriminate|].
  simpl in H. injection H as <-.
  exists e, pw, p. repeat split; auto; apply String.eqb_neq; assumption.
Qed.

Lemma load_row_valid dp row a :
  load_row dp row = Some a ->
  email_re (acc_email a) = true /\ trim (acc_email a) = acc_email a /\
  acc_password a <> "" /\
  (acc_plan a = Some dp \/ exists p, acc_plan a = Some p /\ p <> "" /\ trim p = p).
Proof.
  intro H. destruct (load_row_some dp row a H) as (e & pw & pl & -> & -> & -> & _ & ? & ? & ? & [->|[? ?]]);
  repeat split; auto. right. exists pl. auto.
Qed.

Lemma load_rows_valid dp rows :
  Forall (fun a => email_re (acc_email a) = true /\ trim (acc_email a) = acc_email a /\
                   acc_password a <> "" /\
                   (acc_plan a = Some dp \/ exists p, acc_plan a = Some p /\ p <> "" /\ trim p = p))
    (load_rows dp rows) /\
  (length (load_rows dp rows) <= length rows)%nat.
Proof.
  induction rows as [|row rows [IH1 IH2]]; simpl; [split; [constructor|lia]|].
  destruct (load_row dp row) eqn:E; simpl; [|split; [exact IH1|lia]].
  split; [constructor; [apply (load_row_valid dp row), E|exact IH1]|lia].
Qed.

(** X9: [loadAccountJson] throws [Account input must be a JSON array] on a
    parsed value that is not an array; when it returns accounts, the input
    was an array with at least as many rows, the list is non-empty, and
    each account has a trimmed email passing the email pattern, a non-empty
    password, and either the default plan or a trimmed non-empty plan. *)
Theorem loadAccountJson_spec parsed dp :
  (forall v, parsed = Ok v -> (forall rows, v <> JArr rows) ->
     loadAccountJson parsed dp = Throw "Account input must be a JSON array") /\
  (forall accts, loadAccountJson parsed dp = Ok accts ->
     accts <> [] /\
     (exists rows, parsed = Ok (JArr rows) /\ (length accts <= length rows)%nat) /\
     Forall (fun a => email_re (acc_email a) = true /\ trim (acc_email a) = acc_email a /\
                      acc_password a <> "" /\
                      (acc_plan a = Some dp \/
                       exists p, acc_plan a = Some p /\ p <> "" /\ trim p = p)) accts).
Proof.
  split.
  - intros v -> Hv. simpl. destruct v; try reflexivity. exfalso. eapply Hv. reflexivity.
  - intros accts. unfold loadAccountJson.
    destruct parsed as [v|m]; [|discriminate].
    destruct v as [| | | | |rows|]; try discriminate.
    destruct (load_rows_valid dp rows) as [Hf Hl].
    destruct (load_rows dp rows) as [|a l] eqn:E; [discriminate|].
    intros [= <-]. split; [discriminate|]. split; [exists rows; split; [reflexivity|exact Hl]|].
    exact Hf.
Qed.

Lemma loadAccountJson_spec_witness :
  let rows := [JObj [("email", JStr " a@example.com "); ("password", JStr "pw")];
               JNum 3;
               JObj [("email", JStr "not-an-email"); ("password", JStr "pw")]] in
  loadAccountJson (Ok (JArr rows)) "free" = Ok [mkAccount "a@example.com" "pw" (Some "free")] /\
  [mkAccount "a@example.com" "pw" (Some "free")] <> [] /\
  loadAccountJson (Ok (JNum 3)) "free" = Throw "Account input must be a JSON array".
Proof.
  intro rows.
  assert (H : loadAccountJson (Ok (JArr rows)) "free" = Ok [mkAccount "a@example.com" "pw" (Some "free")])
    by (vm_compute; reflexivity).
  split; [exact H|]. split.
  - exact (proj1 (proj2 (loadAccountJson_spec (Ok (JArr rows)) "free") _ H)).
  - apply (proj1 (loadAccountJson_spec (Ok (JNum 3)) "free") (JNum 3) eq_refl).
    intros xs; discriminate.
Defined.

Lemma load_row_account dp a :
  email_re (acc_email a) = true -> trim (acc_email a) = acc_email a ->
  acc_password a <> "" ->
  (exists p, acc_plan a = Some p /\ p <> "" /\ trim p = p) ->
  load_row dp (account_to_js a) = Some a.
Proof.
  destruct a as [e pw pl]. simpl. intros He Ht Hpw [p [-> [Hp Htp]]].
  unfold load_row, account_to_js. simpl. rewrite Ht, Htp, He.
  apply String.eqb_neq in Hp. apply String.eqb_neq in Hpw. rewrite Hp, Hpw.
  rewrite (proj2 (String.eqb_neq e "")) by (apply email_re_nonempty; exact He).
  reflexivity.
Qed.

(** X10: the accounts file the extract command writes loads back with
    [loadAccountJson] to the same accounts (for a trimmed non-empty plan),
    and an empty extraction makes the load throw [No valid accounts found
    in input JSON]. *)
Theorem extract_then_load content dp dp' now
  (Htrim : trim dp = dp) (Hdp : dp <> "") :
  let accts := fst (parseMarkdownAccounts content dp now) in
  loadAccountJson (Ok (JArr (map account_to_js accts))) dp' =
  match accts with
  | [] => Throw "No valid accounts found in input JSON"
  | _ => Ok accts
  end.
Proof.
  intro accts.
  assert (Hrows : load_rows dp' (map account_to_js accts) = accts).
  { destruct (md_accounts_valid content dp now) as [Hf _]. fold accts in Hf.
    induction Hf as [|a l [He [Ht [Hpw Hpl]]] _ IH]; cbn [map load_rows]; [reflexivity|].
    rewrite load_row_account; [rewrite IH; reflexivity|exact He|exact Ht|exact Hpw|].
    exists dp. auto. }
  simpl. rewrite Hrows. destruct accts; reflexivity.
Qed.

Lemma extract_then_load_witness :
  let content := "a@example.com----pw1" ++ String "010"%char "A@Example.com----pw2" in
  trim "free" = "free" /\ "free" <> "" /\
  loadAccountJson (Ok (JArr (map account_to_js (fst (parseMarkdownAccounts content "free" "t")))))
    "plus" = Ok [mkAccount "A@Example.com" "pw2" (Some "free")].
Proof.
  intro content.
  assert (Ht : trim "free" = "free") by reflexivity.
  assert (Hd : "free" <> "") by discriminate.
  split; [exact Ht|]. split; [exact Hd|].
  pose proof (extract_then_load content "free" "plus" "t" Ht Hd) as H. cbv zeta in H.
  rewrite H. vm_compute. reflexivity.
Defined.

(** ** makeTokenOutputPath *)

Lemma rev_list_app (a b : string) :
  rev (list_ascii_of_string (a ++ b)) = (rev (list_ascii_of_string b) ++ rev (list_ascii_of_string a))%list.
Proof.
  induction a as [|c a IH]; simpl; [rewrite app_nil_r; reflexivity|].
  rewrite IH, app_assoc. reflexivity.
Qed.

Lemma take_segment_no_sep l r :
  ~ In "/"%char l -> take_segment (l ++ "/"%char :: r) = l.
Proof.
  induction l as [|c l IH]; intro H; simpl; [reflexivity|].
  destruct (Ascii.eqb_spec c "/"%char) as [->|Hc]; [exfalso; apply H; left; reflexivity|].
  rewrite IH; [reflexivity|]. intro Hin. apply H. right. exact Hin.
Qed.

Lemma basename_sep_app dir name :
  name <> "" -> ~ In "/"%char (list_ascii_of_string name) ->
  basename (dir ++ "/" ++ name) = name.
Proof.
  intros Hne Hno. unfold basename.
  rewrite rev_list_app.
  change (list_ascii_of_string ("/" ++ name)) with ("/"%char :: list_ascii_of_string name).
  cbn [rev]. rewrite <- app_assoc. cbn [app].
  assert (Hnil : rev (list_ascii_of_string name) <> []).
  { intro E. apply Hne. apply (f_equal (@rev ascii)) in E. rewrite rev_involutive in E.
    rewrite <- (string_of_list_ascii_of_string name), E. reflexivity. }
  assert (Hno' : ~ In "/"%char (rev (list_ascii_of_string name))) by (rewrite <- in_rev; exact Hno).
  assert (Hdrop : forall x, drop_seps (rev (list_ascii_of_string name) ++ x) =
                            (rev (list_ascii_of_string name) ++ x)%list).
  { revert Hnil Hno'. generalize (rev (list_ascii_of_string name)) as L.
    intros [|c r] Hnil Hno' x; [contradiction|].
    cbn [app drop_seps]. destruct (Ascii.eqb_spec c "/"%char) as [->|Hnc];
      [exfalso; apply Hno'; left; reflexivity|reflexivity]. }
  rewrite Hdrop, take_segment_no_sep by exact Hno'.
  rewrite rev_involutive. apply string_of_list_ascii_of_string.
Qed.

Lemma take_segment_all l : ~ In "/"%char l -> take_segment l = l.
Proof.
  induction l as [|c l IH]; intro H; simpl; [reflexivity|].
  destruct (Ascii.eqb_spec c "/"%char) as [->|Hc]; [exfalso; apply H; left; reflexivity|].
  rewrite IH; [reflexivity|]. intro Hin. apply H. right. exact Hin.
Qed.

Lemma basename_plain name :
  name <> "" -> ~ In "/"%char (list_ascii_of_string name) -> basename name = name.
Proof.
  intros Hne Hno. unfold basename.
  assert (Hno' : ~ In "/"%char (rev (list_ascii_of_string name))) by (rewrite <- in_rev; exact Hno).
  assert (Hd : drop_seps (rev (list_ascii_of_string name)) = rev (list_ascii_of_string name)).
  { revert Hno'. generalize (rev (list_ascii_of_string name)) as L.
    intros [|c r] Hno'; [reflexivity|]. cbn [drop_seps].
    destruct (Ascii.eqb_spec c "/"%char) as [->|Hnc];
      [exfalso; apply Hno'; left; reflexivity|reflexivity]. }
  rewrite Hd, take_segment_all by exact Hno'.
  rewrite rev_involutive. apply string_of_list_ascii_of_string.
Qed.

Lemma split_path_nonempty p : split_path p <> [].
Proof.
  destruct p as [|c r]; simpl; [discriminate|].
  destruct (Ascii.eqb c "/"%char); [discriminate|]. destruct (split_path r); discriminate.
Qed.

Lemma split_path_sep a b : split_path (a ++ "/" ++ b) = (split_path a ++ split_path b)%list.
Proof.
  induction a as [|c a IH]; [reflexivity|].
  cbn [append split_path] in *. rewrite IH. destruct (Ascii.eqb c "/"%char); [reflexivity|].
  destruct (split_path a) as [|seg rest] eqn:E; [exfalso; exact (split_path_nonempty a E)|].
  reflexivity.
Qed.

Lemma split_path_plain name :
  ~ In "/"%char (list_ascii_of_string name) -> split_path name = [name].
Proof.
  induction name as [|c r IH]; intro H; [reflexivity|]. simpl.
  destruct (Ascii.eqb_spec c "/"%char) as [->|Hc]; [exfalso; apply H; left; reflexivity|].
  rewrite IH; [reflexivity|]. intro Hin. apply H. right. exact Hin.
Qed.

Lemma concat_snoc (l : list string) x :
  String.concat "/" (l ++ [x])%list =
  match l with [] => x | _ => String.concat "/" l ++ "/" ++ x end.
Proof.
  induction l as [|y l IH]; [reflexivity|].
  destruct l as [|z l]; [reflexivity|].
  change (String.concat "/" ((y :: z :: l) ++ [x])%list) with
    (y ++ "/" ++ String.concat "/" ((z :: l) ++ [x])%list).
  rewrite IH.
  change (String.concat "/" (y :: z :: l)) with (y ++ "/" ++ String.concat "/" (z :: l)).
  rewrite !str_app_assoc. reflexivity.
Qed.

Lemma endsWith_plain x name :
  name <> "" -> ~ In "/"%char (list_ascii_of_string name) -> endsWith (x ++ name) "/" = false.
Proof.
  intros Hne Hno. unfold endsWith. rewrite rev_list_app.
  assert (Hno' : ~ In "/"%char (rev (list_ascii_of_string name))) by (rewrite <- in_rev; exact Hno).
  destruct (rev (list_ascii_of_string name)) as [|c r] eqn:E.
  - exfalso. apply Hne. apply (f_equal (@rev ascii)) in E. rewrite rev_involutive in E.
    rewrite <- (string_of_list_ascii_of_string name), E. reflexivity.
  - cbn [app string_of_list_ascii rev list_ascii_of_string startsWith].
    destruct (Ascii.eqb_spec "/"%char c) as [<-|Hc]; [exfalso; apply Hno'; left; reflexivity|].
    reflexivity.
Qed.

Lemma str_nonempty_app a b : b <> "" -> a ++ b <> "".
Proof. destruct a; simpl; [tauto|discriminate]. Qed.

Lemma basename_join dir name :
  name <> "" -> ~ In "/"%char (list_ascii_of_string name) -> name <> "." -> name <> ".." ->
  basename (path_join dir name) = name.
Proof.
  intros Hne Hno Hd1 Hd2.
  assert (Hstep : forall st, norm_step false st name = name :: st /\ norm_step true st name = name :: st).
  { intro st. unfold norm_step.
    apply String.eqb_neq in Hne, Hd1, Hd2. rewrite Hne, Hd1, Hd2. split; reflexivity. }
  assert (Hq : forall b segs, fold_left (norm_step b) (segs ++ [name])%list [] =
                              name :: fold_left (norm_step b) segs []).
  { intros b segs. rewrite fold_left_app. simpl. destruct b; apply Hstep. }
  assert (Hsep : forall b, (exists pre, b = pre ++ "/" ++ name) \/ b = name ->
                  basename b = name).
  { intros b [[pre ->]| ->]; [apply basename_sep_app|apply basename_plain]; assumption. }
  unfold path_join. apply String.eqb_neq in Hne as Hne'. rewrite Hne'.
  destruct (String.eqb_spec dir "") as [->|Hdir].
  - rewrite Hne'. unfold normalize. rewrite Hne'.
    assert (Habs : startsWith name "/" = false).
    { destruct name as [|c r]; [contradiction|]. cbn [startsWith].
      destruct (Ascii.eqb_spec "/"%char c) as [<-|Hc]; [exfalso; apply Hno; left; reflexivity|].
      reflexivity. }
    rewrite Habs. rewrite (endsWith_plain "" name Hne Hno : endsWith name "/" = false).
    unfold normalizeString. rewrite (split_path_plain _ Hno).
    change [name] with ([] ++ [name])%list. rewrite Hq. cbn. rewrite Hne'.
    apply Hsep. right. reflexivity.
  - assert (Hj : String.eqb (dir ++ "/" ++ name) "" = false).
    { apply String.eqb_neq. apply str_nonempty_app. discriminate. }
    rewrite Hj. unfold normalize. rewrite Hj.
    rewrite <- str_app_assoc, (endsWith_plain _ name Hne Hno), str_app_assoc.
    unfold normalizeString. rewrite split_path_sep, (split_path_plain _ Hno), Hq.
    cbn [rev]. rewrite concat_snoc.
    destruct (rev (fold_left _ (split_path dir) [])) as [|y l].
    + rewrite Hne'. destruct (startsWith _ "/").
      * apply Hsep. left. exists "". reflexivity.
      * apply Hsep. right. reflexivity.
    + rewrite (proj2 (String.eqb_neq _ _) (str_nonempty_app _ _ (str_nonempty_app "/" name Hne))).
      destruct (startsWith _ "/").
      * apply Hsep. left. exists ("/" ++ String.concat "/" (y :: l)). rewrite str_app_assoc. reflexivity.
      * apply Hsep. left. eexists. reflexivity.
Qed.


Lemma startsWith_rev_app (l1 l2 : list ascii) :
  startsWith (string_of_list_ascii (l1 ++ l2)) (string_of_list_ascii l1) = true.
Proof.
  induction l1 as [|c l1 IH]; simpl; [destruct (string_of_list_ascii l2); reflexivity|].
  rewrite Ascii.eqb_refl. exact IH.
Qed.

Lemma endsWith_app s p : endsWith (s ++ p) p = true.
Proof. unfold endsWith. rewrite rev_list_app. apply startsWith_rev_app. Qed.

Lemma replace_unsafe_safe s : forallb (fun c => negb (unsafe_char c)) (list_ascii_of_string (replace_unsafe s)) = true.
Proof.
  induction s as [|c s IH]; simpl; [reflexivity|].
  rewrite IH, andb_true_r. destruct (unsafe_char c) eqn:E; [reflexivity|]. rewrite E. reflexivity.
Qed.

Lemma list_ascii_app (a b : string) :
  list_ascii_of_string (a ++ b) = (list_ascii_of_string a ++ list_ascii_of_string b)%list.
Proof. induction a as [|c a IH]; simpl; [reflexivity|]. rewrite IH. reflexivity. Qed.

(** X11: when the account's plan has no [/], the token output path is the
    output directory joined with the file name
    [codex-<email with unsafe characters replaced>-<plan or free>.json];
    that name holds none of the replaced characters and is a name the
    rotation indexer picks up. *)
Theorem makeTokenOutputPath_name outDir a c
  (Hplan : forall p, acc_plan a = Some p -> ~ In "/"%char (list_ascii_of_string p)) :
  let name := basename (makeTokenOutputPath outDir a) in
  makeTokenOutputPath outDir a = path_join outDir name /\
  name = "codex-" ++ replace_unsafe (acc_email a) ++ "-" ++
         match acc_plan a with Some p => p | None => "free" end ++ ".json" /\
  forallb (fun c => negb (unsafe_char c)) (list_ascii_of_string (replace_unsafe (acc_email a))) = true /\
  is_artifact_name (mkDirent name true c) = true.
Proof.
  set (pl := match acc_plan a with Some p => p | None => "free" end).
  assert (Hpl : ~ In "/"%char (list_ascii_of_string pl)).
  { unfold pl. destruct (acc_plan a) as [p|] eqn:E; [exact (Hplan p eq_refl)|simpl; intuition discriminate]. }
  set (nm := "codex-" ++ replace_unsafe (acc_email a) ++ "-" ++ pl ++ ".json").
  assert (Hnm : basename (makeTokenOutputPath outDir a) = nm).
  { apply basename_join; [unfold nm; discriminate| |unfold nm; discriminate|unfold nm; discriminate].
    unfold nm. rewrite !list_ascii_app. intro Hin.
    pose proof (replace_unsafe_safe (acc_email a)) as Hs. rewrite forallb_forall in Hs.
    repeat (apply in_app_or in Hin; destruct Hin as [Hin|Hin]);
      first [ exact (Hpl Hin) | apply Hs in Hin; discriminate | simpl in Hin; intuition discriminate ]. }
  cbv zeta. rewrite Hnm. split; [reflexivity|]. split; [reflexivity|].
  split; [apply replace_unsafe_safe|].
  unfold is_artifact_name. simpl d_name. simpl d_isFile.
  unfold nm. rewrite startsWith_app. rewrite <- !str_app_assoc. rewrite endsWith_app. reflexivity.
Qed.

Lemma makeTokenOutputPath_name_witness :
  let a := mkAccount "x/y:z@example.com" "pw" (Some "plus") in
  (forall p, acc_plan a = Some p -> ~ In "/"%char (list_ascii_of_string p)) /\
  makeTokenOutputPath "/out" a = path_join "/out" (basename (makeTokenOutputPath "/out" a)) /\
  is_artifact_name (mkDirent (basename (makeTokenOutputPath "/out" a)) true None) = true.
Proof.
  intro a.
  assert (Hplan : forall p, acc_plan a = Some p -> ~ In "/"%char (list_ascii_of_string p)).
  { intros p [= <-]. simpl. intuition discriminate. }
  split; [exact Hplan|].
  destruct (makeTokenOutputPath_name "/out" a None Hplan) as [H1 [_ [_ H4]]].
  split; [exact H1|exact H4].
Defined.

(** ** redactEmail *)

Lemma indexOf_none c s : ~ In c (list_ascii_of_string s) -> indexOf c s = (-1)%Z.
Proof.
  induction s as [|d s IH]; intro H; simpl; [reflexivity|].
  destruct (Ascii.eqb_spec d c) as [->|Hd]; [exfalso; apply H; left; reflexivity|].
  rewrite IH; [reflexivity|]. intro Hin. apply H. right. exact Hin.
Qed.

Lemma indexOf_first c l d : ~ In c (list_ascii_of_string l) ->
  indexOf c (l ++ String c d) = Z.of_nat (String.length l).
Proof.
  induction l as [|e l IH]; intro H; simpl; [rewrite Ascii.eqb_refl; reflexivity|].
  destruct (Ascii.eqb_spec e c) as [->|He]; [exfalso; apply H; left; reflexivity|].
  rewrite IH by (intro Hin; apply H; right; exact Hin).
  destruct (Z.ltb_spec (Z.of_nat (String.length l)) 0); lia.
Qed.

Lemma slice_from_app l r : slice_from (String.length l) (l ++ r) = r.
Proof. induction l as [|c l IH]; simpl; [destruct r; reflexivity|]. exact IH. Qed.

Lemma slice0_app n l r : (n <= String.length l)%nat -> slice0 n (l ++ r) = slice0 n l.
Proof.
  revert n. induction l as [|c l IH]; intros n Hn; simpl in *.
  - assert (n = 0%nat) by lia. subst. reflexivity.
  - destruct n; [reflexivity|]. simpl. rewrite IH by lia. reflexivity.
Qed.

(** X12: [redactEmail] gives [***] for a text without [@], and for a local
    part without [@] followed by [@domain] it keeps only the first two
    characters of the local part and the domain, or gives [***] when the
    local part has at most one character. *)
Theorem redactEmail_spec l d :
  ~ In "@"%char (list_ascii_of_string l) ->
  redactEmail l = "***" /\
  redactEmail (l ++ "@" ++ d) =
    if (String.length l <=? 1)%nat then "***" else slice0 2 l ++ "***" ++ "@" ++ d.
Proof.
  intro H. unfold redactEmail. split.
  - rewrite indexOf_none by exact H. reflexivity.
  - change ("@" ++ d) with (String "@"%char d). rewrite indexOf_first by exact H.
    destruct (Nat.leb_spec (String.length l) 1) as [Hl|Hl].
    + replace (Z.of_nat (String.length l) <=? 1)%Z with true by (symmetry; apply Z.leb_le; lia).
      reflexivity.
    + replace (Z.of_nat (String.length l) <=? 1)%Z with false by (symmetry; apply Z.leb_gt; lia).
      rewrite Nat2Z.id, slice_from_app, slice0_app by lia. reflexivity.
Qed.

Lemma redactEmail_spec_witness :
  ~ In "@"%char (list_ascii_of_string "alice") /\
  redactEmail ("alice" ++ "@" ++ "example.com") = "al***@example.com" /\
  redactEmail ("a" ++ "@" ++ "example.com") = "***".
Proof.
  assert (H : ~ In "@"%char (list_ascii_of_string "alice")) by (simpl; intuition discriminate).
  assert (H' : ~ In "@"%char (list_ascii_of_string "a")) by (simpl; intuition discriminate).
  split; [exact H|]. split.
  - rewrite (proj2 (redactEmail_spec "alice" "example.com" H)). reflexivity.
  - rewrite (proj2 (redactEmail_spec "a" "example.com" H')). reflexivity.
Defined.


(** ** pollCpamcAuthStatus *)

Lemma poll_once_decided state ev bt t r :
  poll_once state ev bt t = PollDone r ->
  forall st raw, r = Ok (st, raw) ->
  st_status st <> StWaiting /\
  ((match state with Some s => s = "" | None => True end) -> raw = None).
Proof.
  unfold poll_once. intros H st raw ->.
  destruct state as [s|]; cbv zeta in H.
  - destruct (String.eqb s "") eqn:Es; cbn [negb] in H.
    + destruct (bt t) as [txt|m]; [|discriminate].
      repeat match type of H with context [if ?b then _ else _] => destruct b end;
        try discriminate; injection H as <- <-; split; [discriminate|auto|discriminate|auto].
    + destruct (ev t) as [res|m]; [|discriminate].
      split; [|intro Hs; apply String.eqb_neq in Es; contradiction].
      repeat match type of H with context [match ?b with StSuccess => _ | StError => _ | StWaiting => _ end] =>
        destruct b end;
      try discriminate; injection H as <- _; discriminate.
  - destruct (bt t) as [txt|m]; [|discriminate].
    repeat match type of H with context [if ?b then _ else _] => destruct b end;
      try discriminate; injection H as <- <-; split; [discriminate|auto|discriminate|auto].
Qed.

Lemma poll_for_inv state timeoutMs started ev bt t polls r :
  poll_for state timeoutMs started ev bt t polls r ->
  (forall x, In x polls -> (t <= x /\ x < started + timeoutMs)%Z) /\
  Sorted (fun a b => (a + 1000 <= b)%Z) polls /\
  (forall st raw, r = Ok (st, raw) -> st_status st = StWaiting ->
     st = mkStatus StWaiting (Some "Timed out waiting auth status") /\ raw = None) /\
  ((match state with Some s => s = "" | None => True end) ->
     forall st raw, r = Ok (st, raw) -> raw = None).
Proof.
  induction 1 as [t Ht|t r Ht Hd|t d polls r Ht Hw Hd Hp IH].
  - split; [intros x []|]. split; [constructor|].
    split; [intros st raw [= <- <-]; auto|intros _ st raw [= _ <-]; reflexivity].
  - pose proof (poll_once_decided _ _ _ _ _ Hd) as Hdec.
    split; [intros x [<-|[]]; lia|]. split; [repeat constructor|].
    split; [intros st raw -> Hst; exfalso; exact (proj1 (Hdec st raw eq_refl) Hst)|].
    intros Hs st raw ->. exact (proj2 (Hdec st raw eq_refl) Hs).
  - destruct IH as (Hin & Hs & Hw' & Hr).
    split; [intros x [<-|Hx]; [lia|apply Hin in Hx; lia]|].
    split; [|split; assumption].
    constructor; [exact Hs|].
    destruct polls as [|y ys]; constructor.
    assert (In y (y :: ys)) as Hy by (left; reflexivity). apply Hin in Hy. lia.
Qed.

(** X13: [pollCpamcAuthStatus] only polls before the deadline, at least 1000
    ms apart; it returns a waiting status only as the timeout result
    [Timed out waiting auth status] with no [raw] field, and without a
    non-empty [state] no result carries a [raw] field. *)
Theorem pollCpamcAuthStatus_outcome state timeoutMs started ev bt polls r :
  pollCpamcAuthStatus state timeoutMs started ev bt polls r ->
  (forall x, In x polls -> (started <= x /\ x < started + timeoutMs)%Z) /\
  Sorted (fun a b => (a + 1000 <= b)%Z) polls /\
  (forall st raw, r = Ok (st, raw) -> st_status st = StWaiting ->
     st = mkStatus StWaiting (Some "Timed out waiting auth status") /\ raw = None) /\
  ((match state with Some s => s = "" | None => True end) ->
     forall st raw, r = Ok (st, raw) -> raw = None).
Proof. apply poll_for_inv. Qed.

Lemma pollCpamcAuthStatus_outcome_witness :
  pollCpamcAuthStatus None 5000 0 (fun _ => Throw "unused")
    (fun t => if (t <? 1000)%Z then Ok "loading" else Ok "OAuth success")
    [0; 1200]%Z (Ok (mkStatus StSuccess (Some "OAuth success"), None)) /\
  (forall x, In x [0; 1200]%Z -> (0 <= x /\ x < 0 + 5000)%Z).
Proof.
  assert (Hrun : pollCpamcAuthStatus None 5000 0 (fun _ => Throw "unused")
    (fun t => if (t <? 1000)%Z then Ok "loading" else Ok "OAuth success")
    [0; 1200]%Z (Ok (mkStatus StSuccess (Some "OAuth success"), None))).
  { unfold pollCpamcAuthStatus.
    apply (poll_again _ _ _ _ _ 0 200); [vm_compute; reflexivity|vm_compute; reflexivity|lia|].
    apply poll_done; [vm_compute; reflexivity|vm_compute; reflexivity]. }
  split; [exact Hrun|].
  exact (proj1 (pollCpamcAuthStatus_outcome None 5000 0 _ _ _ _ Hrun)).
Defined.


(** ** runAuthCommand summary *)

Lemma auth_loop_done_inv gs tmo dp worlds i accts rs res :
  auth_loop gs tmo dp worlds i accts rs = LoopDone res ->
  exists added, res = (rs ++ added)%list /\
    map res_email added = map acc_email accts /\
    Forall (fun r => res_status r = Rsuccess \/ res_status r = Rfailed) added.
Proof.
  revert i rs. induction accts as [|a rest IH]; intros i rs H; simpl in H.
  - injection H as <-. exists []. rewrite app_nil_r. repeat split; constructor.
  - destruct (w_newContext (worlds i)); [|discriminate].
    destruct (iteration_appends gs tmo dp (worlds i) a rs) as [r [Hit [He [_ Hs]]]].
    rewrite Hit in H. destruct (IH _ _ H) as [added [-> [Hm Hf]]].
    exists (r :: added). rewrite <- app_assoc. simpl. repeat split; [f_equal; assumption|].
    constructor; assumption.
Qed.

Lemma count_res_total l :
  (count_res Rsuccess l + count_res Rfailed l + count_res Rskipped l)%nat = length l.
Proof.
  induction l as [|r l IH]; [reflexivity|]. unfold count_res in *. simpl.
  destruct (res_status r); simpl; lia.
Qed.

Lemma count_res_none s l : Forall (fun r => res_status r <> s) l -> count_res s l = 0%nat.
Proof.
  induction 1 as [|r l Hr _ IH]; [reflexivity|]. unfold count_res in *. simpl.
  destruct (res_status r), s; simpl; try exact IH; contradiction.
Qed.

(** X14: every report of the auth command has one result per loaded account
    (in order, by email), its total is the number of results and success,
    failed and skipped add up to it; a dry run reports only skipped results
    with code UNKNOWN, a real run none skipped. *)
Theorem runAuth_summary_counts gs tmo dp dryRun launch close write dry worlds accts s :
  runAuth gs tmo dp dryRun launch close write dry worlds accts = Ok s ->
  sum_total s = length accts /\ length (sum_results s) = sum_total s /\
  (sum_success s + sum_failed s + sum_skipped s)%nat = sum_total s /\
  map res_email (sum_results s) = map acc_email accts /\
  (dryRun = true ->
     sum_mode s = "dry-run" /\ sum_success s = 0%nat /\ sum_failed s = 0%nat /\
     Forall (fun r => res_status r = Rskipped /\ res_code r = Some UNKNOWN) (sum_results s)) /\
  (dryRun = false -> sum_mode s = "run" /\ sum_skipped s = 0%nat).
Proof.
  unfold runAuth. destruct dryRun.
  - destruct write as [wu|wm]; [|discriminate].
    intros [= <-]. simpl. rewrite !length_map.
    split; [reflexivity|]. split; [reflexivity|]. split; [lia|].
    split; [rewrite map_map; apply map_ext; intros a; destruct (dry a) as [[x y] z]; reflexivity|].
    split; [|discriminate]. intros _. repeat split.
    apply Forall_forall. intros r Hr. apply in_map_iff in Hr.
    destruct Hr as [a [<- _]]. destruct (dry a) as [[x y] z]. split; reflexivity.
  - destruct launch; [|discriminate]. destruct close; [|discriminate].
    destruct (auth_loop gs tmo dp worlds 0 accts []) as [res|m p] eqn:E; [|discriminate].
    destruct write; [|discriminate].
    intros [= <-]. simpl.
    destruct (auth_loop_done_inv _ _ _ _ _ _ _ _ E) as [added [-> [Hm Hf]]]. simpl in *.
    assert (Hlen : length added = length accts)
      by (rewrite <- (length_map res_email added), Hm, length_map; reflexivity).
    split; [exact Hlen|]. split; [reflexivity|]. split; [apply count_res_total|].
    split; [exact Hm|]. split; [discriminate|]. intros _. split; [reflexivity|].
    apply count_res_none. eapply Forall_impl; [|exact Hf]. intros r [-> | ->]; discriminate.
Qed.

Lemma runAuth_summary_counts_witness :
  exists s, runAuth sample_state 120000 "free" false (Ok tt) (Ok tt) (Ok tt) sample_dry (fun _ => world_ok)
              sample_accounts = Ok s /\
    sum_total s = length sample_accounts /\
    (sum_success s + sum_failed s + sum_skipped s)%nat = sum_total s.
Proof.
  eexists. split; [vm_compute; reflexivity|].
  pose proof (runAuth_summary_counts sample_state 120000 "free" false (Ok tt) (Ok tt) (Ok tt) sample_dry
                (fun _ => world_ok) sample_accounts _ eq_refl) as (H1 & _ & H3 & _).
  split; [exact H1|exact H3].
Defined.


(** ** First rotation index run *)

Lemma merge_into_fresh m l :
  NoDup (keys l) -> (forall k, In k (keys l) -> ~ In k (map fst m)) ->
  merge_into m l = (m ++ map (fun a => (accountKey a, a)) l)%list.
Proof.
  revert m. induction l as [|a l IH]; intros m Hnd Hdis; simpl; [rewrite app_nil_r; reflexivity|].
  unfold merge_into in *. simpl.
  inversion Hnd as [|k ks Hk Hnd']; subst.
  rewrite map_set_absent by (apply Hdis; left; reflexivity).
  rewrite IH; [rewrite <- app_assoc; reflexivity|exact Hnd'|].
  intros k Hin. rewrite map_app, in_app_iff. simpl. intros [Hm|[Heq|[]]].
  - exact (Hdis k (or_intror Hin) Hm).
  - subst. exact (Hk Hin).
Qed.

(** X15: without a readable previous index, rotate-index writes the freshly
    built index unchanged except its timestamp, when the built entries have
    distinct keys. *)
Theorem rotate_index_first_run date_parse dir listing now iso_build iso_write prior :
  (prior = None \/ prior = Some None) ->
  let built := buildRotationIndex date_parse dir listing now iso_build in
  NoDup (keys (accounts built)) ->
  rotate_index_run date_parse dir listing now iso_build iso_write prior =
  mkIndex iso_write (total built) (active built) (expired built) (disabled built)
    (invalid built) (accounts built).
Proof.
  intros Hprior built Hnd. unfold rotate_index_run, writeRotationIndex. fold built.
  replace (existingAccounts prior) with (@nil jsval) by (destruct Hprior as [-> | ->]; reflexivity).
  change (merge_into [] []) with (@nil (string * jsval)).
  rewrite merge_into_fresh by (exact Hnd || (intros k _ []); fail).
  simpl. rewrite map_map, map_id.
  unfold built, buildRotationIndex. simpl. rewrite length_map. reflexivity.
Qed.

Lemma rotate_index_first_run_witness :
  let listing := [mkDirent "codex-a@example.com-free.json" true
                    (Some (JObj [("email", JStr "a@example.com")]));
                  mkDirent "codex-b@example.com-plus.json" true
                    (Some (JObj [("email", JStr "b@example.com"); ("disabled", JBool true)]));
                  mkDirent "notes.txt" true None] in
  NoDup (keys (accounts (buildRotationIndex (fun _ => None) "/auth" listing (fun _ => 0%Z) "t0"))) /\
  rotate_index_run (fun _ => None) "/auth" listing (fun _ => 0%Z) "t0" "t1" None =
  let built := buildRotationIndex (fun _ => None) "/auth" listing (fun _ => 0%Z) "t0" in
  mkIndex "t1" (total built) (active built) (expired built) (disabled built)
    (invalid built) (accounts built).
Proof.
  intro listing.
  assert (Hnd : NoDup (keys (accounts (buildRotationIndex (fun _ => None) "/auth" listing (fun _ => 0%Z) "t0")))).
  { vm_compute. constructor; [intros [H|[]]; discriminate H|]. constructor; [intros []|constructor]. }
  split; [exact Hnd|].
  exact (rotate_index_first_run (fun _ => None) "/auth" listing (fun _ => 0%Z) "t0" "t1" None
           (or_introl eq_refl) Hnd).
Defined.


(** ** loadFlowConfig *)



Lemma define_props_find k m l :
  find_key k (define_props m l) =
  match find_key k (rev l) with Some v => Some v | None => find_key k m end.
Proof.
  unfold define_props. revert m. induction l as [|[k0 v0] l IH]; intro m; [reflexivity|].
  cbn [fold_left rev fst snd]. rewrite IH, map_set_find, find_key_app. cbn [find_key].
  destruct (find_key k (rev l)); [reflexivity|].
  destruct (String.eqb k k0); reflexivity.
Qed.

Lemma find_key_some_in {V} k (l : list (string * V)) v : find_key k l = Some v -> In (k, v) l.
Proof.
  induction l as [|[k0 v0] l IH]; simpl; [discriminate|].
  destruct (String.eqb_spec k k0) as [->|]; [intros [= ->]; left; reflexivity|].
  intro H. right. exact (IH H).
Qed.

Lemma find_key_none_in {V} k (l : list (string * V)) : find_key k l = None -> ~ In k (map fst l).
Proof.
  induction l as [|[k0 v0] l IH]; simpl; [intros _ []|].
  destruct (String.eqb_spec k k0) as [->|Hne]; [discriminate|].
  intros H [E|Hin]; [congruence|exact (IH H Hin)].
Qed.

Lemma find_key_in_nodup {V} k (l : list (string * V)) v :
  NoDup (map fst l) -> In (k, v) l -> find_key k l = Some v.
Proof.
  induction l as [|[k0 v0] l IH]; simpl; [intros _ []|].
  intros Hnd Hin. inversion Hnd as [|? ? Hk0 Hnd']; subst.
  destruct (String.eqb_spec k k0) as [->|Hne].
  - destruct Hin as [[= ->]|Hin]; [reflexivity|].
    exfalso. apply Hk0. apply (in_map fst) in Hin. exact Hin.
  - destruct Hin as [[= -> ->]|Hin]; [contradiction|exact (IH Hnd' Hin)].
Qed.

Lemma find_key_none_notin {V} k (l : list (string * V)) : ~ In k (map fst l) -> find_key k l = None.
Proof.
  induction l as [|[k0 v0] l IH]; simpl; [reflexivity|].
  intro H. destruct (String.eqb_spec k k0) as [->|]; [exfalso; apply H; left; reflexivity|].
  apply IH. intro Hin. apply H. right. exact Hin.
Qed.

Lemma find_key_perm {V} k (l1 l2 : list (string * V)) :
  Permutation l1 l2 -> NoDup (map fst l1) -> find_key k l1 = find_key k l2.
Proof.
  intros Hp Hnd.
  assert (Hnd2 : NoDup (map fst l2))
    by (eapply Permutation_NoDup; [apply Permutation_map, Hp|exact Hnd]).
  destruct (find_key k l1) as [v|] eqn:E.
  - symmetry. apply find_key_in_nodup; [exact Hnd2|].
    apply (Permutation_in _ Hp). apply find_key_some_in, E.
  - symmetry. apply find_key_none_notin. intro Hin. apply (find_key_none_in _ _ E).
    apply (Permutation_in _ (Permutation_sym (Permutation_map fst Hp))). exact Hin.
Qed.

Lemma index_insert_perm {V} i (kv : string * V) l :
  Permutation (map snd (index_insert i kv l)) (kv :: map snd l).
Proof.
  induction l as [|[j kv'] l IH]; simpl; [reflexivity|].
  destruct (i <? j)%Z; simpl; [reflexivity|].
  rewrite IH. apply perm_swap.
Qed.

Lemma own_keys_order_perm {V} (ps : list (string * V)) : Permutation (own_keys_order ps) ps.
Proof.
  unfold own_keys_order.
  set (isidx := fun kv : string * V => match array_index (fst kv) with Some _ => true | None => false end).
  assert (H1 : Permutation (map snd (index_keys ps)) (filter isidx ps)).
  { induction ps as [|kv ps IH]; simpl; [reflexivity|]. unfold isidx at 1.
    destruct (array_index (fst kv)); [|exact IH].
    rewrite index_insert_perm. constructor. exact IH. }
  rewrite H1. clear H1.
  induction ps as [|kv ps IH]; simpl; [reflexivity|]. unfold isidx at 1 3.
  destruct (array_index (fst kv)); simpl.
  - constructor. exact IH.
  - rewrite <- Permutation_middle. constructor. exact IH.
Qed.

Lemma find_key_own_keys_rev k ps :
  NoDup (map fst ps) -> find_key k (rev (own_keys_order ps)) = @find_key jsval k ps.
Proof.
  intro Hnd. apply find_key_perm; [|].
  - rewrite <- Permutation_rev. apply own_keys_order_perm.
  - eapply Permutation_NoDup; [|exact Hnd]. apply Permutation_map.
    rewrite <- Permutation_rev. symmetry. apply own_keys_order_perm.
Qed.

Lemma assoc_get_find k ps : assoc_get k ps = match find_key k ps with Some v => v | None => JUndef end.
Proof.
  induction ps as [|[k0 v0] ps IH]; simpl; [reflexivity|].
  destruct (String.eqb k k0); [reflexivity|exact IH].
Qed.

Lemma find_key_map_keys {A} k (f : string -> A) ks :
  find_key k (rev (map (fun k' => (k', f k')) ks)) =
  if existsb (String.eqb k) ks then Some (f k) else None.
Proof.
  induction ks as [|k0 ks IH]; simpl; [reflexivity|].
  rewrite find_key_app, IH. simpl.
  destruct (String.eqb_spec k k0) as [->|]; simpl.
  - destruct (existsb (String.eqb k0) ks); reflexivity.
  - destruct (existsb (String.eqb k) ks); reflexivity.
Qed.

(** X16: [loadFlowConfig] returns the defaults without a path, throws [Flow
    config not found] for a missing file, throws on a file holding [null],
    and on an object takes each array field from the file unless it is
    missing or [null] there, and every other field from the file whenever
    the file has it (even as [null]), else from the defaults. *)
Theorem loadFlowConfig_spec configPath absPath exists_ parsed :
  ((configPath = None \/ configPath = Some "") ->
     loadFlowConfig configPath absPath exists_ parsed = Ok getDefaultFlowConfig) /\
  (forall p, configPath = Some p -> p <> "" -> exists_ = false ->
     loadFlowConfig configPath absPath exists_ parsed = Throw ("Flow config not found: " ++ absPath)) /\
  (forall p, configPath = Some p -> p <> "" -> exists_ = true -> parsed = Ok JNull ->
     exists m, loadFlowConfig configPath absPath exists_ parsed = Throw m) /\
  (forall p ps, configPath = Some p -> p <> "" -> exists_ = true -> parsed = Ok (JObj ps) ->
     NoDup (map fst ps) ->
     exists cfg, loadFlowConfig configPath absPath exists_ parsed = Ok cfg /\
     forall k, prop cfg k =
       if existsb (String.eqb k) flow_array_keys then
         match assoc_get k ps with
         | JUndef | JNull => prop getDefaultFlowConfig k
         | v => v
         end
       else
         match find_key k ps with
         | Some v => v
         | None => prop getDefaultFlowConfig k
         end).
Proof.
  split; [intros [-> | ->]; reflexivity|].
  split; [intros p -> Hp ->; simpl; apply String.eqb_neq in Hp; rewrite Hp; reflexivity|].
  split; [intros p -> Hp -> ->; simpl; apply String.eqb_neq in Hp; rewrite Hp; eexists; reflexivity|].
  intros p ps -> Hp -> -> Hnd. unfold loadFlowConfig. apply String.eqb_neq in Hp. rewrite Hp.
  cbn [negb]. unfold mergeFlowConfig.
  eexists. split; [reflexivity|]. intro k. unfold prop at 1.
  rewrite assoc_get_find, define_props_find, find_key_map_keys.
  destruct (existsb (String.eqb k) flow_array_keys); [reflexivity|].
  rewrite define_props_find.
  set (dps := match getDefaultFlowConfig with JObj ps => ps | _ => [] end).
  change (spread_props getDefaultFlowConfig) with (own_keys_order dps).
  change (spread_props (JObj ps)) with (own_keys_order ps).
  change (prop getDefaultFlowConfig k) with (assoc_get k dps).
  rewrite rev_app_distr, find_key_app, find_key_own_keys_rev by exact Hnd.
  destruct (find_key k ps); [reflexivity|].
  rewrite find_key_own_keys_rev by (vm_compute; repeat constructor; simpl; intuition discriminate).
  rewrite assoc_get_find. destruct (find_key k dps); reflexivity.
Qed.

Lemma loadFlowConfig_spec_witness :
  let ps := [("loginUrl", JNull); ("challengeSelectors", JNull); ("accountType", JStr "other")] in
  NoDup (map fst ps) /\
  exists cfg, loadFlowConfig (Some "flow.json") "/w/flow.json" true (Ok (JObj ps)) = Ok cfg /\
    prop cfg "challengeSelectors" = prop getDefaultFlowConfig "challengeSelectors" /\
    prop cfg "loginUrl" = JNull /\
    prop cfg "emailSelector" = JStr "input[type='email']".
Proof.
  intro ps.
  assert (Hnd : NoDup (map fst ps)) by (simpl; repeat constructor; simpl; intuition discriminate).
  split; [exact Hnd|].
  destruct (proj2 (proj2 (proj2 (loadFlowConfig_spec (Some "flow.json") "/w/flow.json" true
              (Ok (JObj ps))))) "flow.json" ps eq_refl ltac:(discriminate) eq_refl eq_refl Hnd)
    as [cfg [H1 H2]].
  exists cfg. split; [exact H1|].
  rewrite !H2. split; [reflexivity|]. split; reflexivity.
Defined.


(** ** parseScalar *)

Lemma slice0_len_app s t : slice0 (String.length s) (s ++ t) = s.
Proof. induction s as [|c s IH]; simpl; [destruct t; reflexivity|]. rewrite IH. reflexivity. Qed.

(** X17: [parseScalar] removes one pair of matching double or single quotes
    around the trimmed value, and a value made of one quote character
    becomes empty. *)
Theorem parseScalar_unquote raw q w :
  (q = "034"%char \/ q = "'"%char) ->
  (trim raw = String q (w ++ String q "") -> parseScalar raw = w) /\
  (trim raw = String q "" -> parseScalar raw = "").
Proof.
  intros Hq. unfold parseScalar. split; intro H; rewrite H.
  - assert (Hb : (startsWith (String q (w ++ String q "")) (String "034"%char "") &&
                  endsWith (String q (w ++ String q "")) (String "034"%char "") ||
                  startsWith (String q (w ++ String q "")) "'" &&
                  endsWith (String q (w ++ String q "")) "'") = true).
    { change (String q (w ++ String q "")) with (String q "" ++ (w ++ String q "")).
      destruct Hq as [-> | ->];
        [apply orb_true_iff; left | apply orb_true_iff; right];
        (apply andb_true_iff; split; [apply startsWith_app|]);
        rewrite <- str_app_assoc; apply endsWith_app. }
    rewrite Hb.
    replace (String.length (String q (w ++ String q "")) - 1)%nat
      with (String.length (String q w)) by (simpl; rewrite str_length_app; simpl; lia).
    change (String q (w ++ String q "")) with (String q w ++ String q "").
    rewrite slice0_len_app. reflexivity.
  - destruct Hq as [-> | ->]; reflexivity.
Qed.

Lemma parseScalar_unquote_witness :
  trim "  'se cret'  " = String "'"%char ("se cret" ++ String "'"%char "") /\
  parseScalar "  'se cret'  " = "se cret".
Proof.
  assert (H : trim "  'se cret'  " = String "'"%char ("se cret" ++ String "'"%char "")) by reflexivity.
  split; [exact H|].
  exact (proj1 (parseScalar_unquote "  'se cret'  " "'"%char "se cret" (or_intror eq_refl)) H).
Defined.
